(** * The icon matcher of the command menu

    A shallow embedding of [getFilteredIcons] from
    [web/src/components/command-menu.tsx], the function that filters and
    ranks the icon list while the user types in the command palette.

    Numbers.  The numbers of the program are IEEE 754 binary64 values.
    [Module Binary64] embeds the scoring and the ranking on Rocq's
    primitive binary64 floats: [*], [-], [>] and [===] are the operations
    of the processor, the literals [2.0], [1.8] and [0.3] are the doubles
    nearest to them, and NaN, the infinities and the two zeros are there.
    What depends on the value of a score, on ties or on the order of the
    result is stated over that module.

    The definitions outside the module read the same code over the
    rationals [Q] with exact arithmetic: the literals are the rationals
    of the same name, [*] and [-] are [Qmult] and [Qminus], [===] is
    [Qeq_bool] and [>] is [Qlt_bool] with its arguments swapped.  Over
    them are stated the lengths, the membership in the result, the frame
    on the store and the bounds under the contract of [fuzzySearch].

    The similarity function [fuzzySearch] is imported by the source from
    [@/lib/utils]; it is a variable of the sections below, a pure function
    from two strings to a number. *)

From Stdlib Require Import QArith Lqa Sorted Ascii Floats.
From stdpp Require Import base list sorting gmap strings.

Set Warnings "-inexact-float".

Local Open Scope string_scope.

(** ** Data model *)

(** The [data] object of an icon; keys other than [categories] and
    [aliases] are never read by the matcher.  Both fields have the type
    [string[]] in [CommandMenuProps], so the first conjunct of the guards
    [icon.data.aliases && icon.data.aliases.length > 0] always holds and
    the guards are the test for the empty list. *)
Record IconData : Type := mkIconData {
  categories : list string;
  aliases : list string
}.

(** An element of [CommandMenuProps["icons"]]. *)
Record Icon : Type := mkIcon {
  name : string;
  data : IconData
}.

(** The three values the source writes as the string literals ["name"],
    ["alias"] and ["category"]. *)
Inductive MatchedField : Type :=
  | Name
  | Alias
  | Category.

(** The object literal [{ icon, score, matchedField }] built by the first
    [map] callback. *)
Record ScoredIcon : Type := mkScoredIcon {
  icon : Icon;
  score : Q;
  matchedField : MatchedField
}.

Global Instance IconData_eq_dec : EqDecision IconData.
Proof. solve_decision. Defined.

Global Instance Icon_eq_dec : EqDecision Icon.
Proof. solve_decision. Defined.

Global Instance MatchedField_eq_dec : EqDecision MatchedField.
Proof. solve_decision. Defined.

(** ** Numbers *)

(** [x < y] as a boolean; the source's [a > b] is [Qlt_bool b a]. *)
Definition Qlt_bool (x y : Q) : bool := negb (Qle_bool y x).

(** The larger of two numbers, as one step of [Math.max]. *)
Definition max2 (x y : Q) : Q := if Qle_bool x y then y else x.

(** [Math.max(x, ...xs)] on a non-empty argument list.  Both spread calls
    of the source are guarded by [length > 0] and the third call has three
    arguments, so the zero-argument call is never made. *)
Definition Math_max (x : Q) (xs : list Q) : Q := fold_left max2 xs x.

(** ** Array methods, on the contents of an array *)

(** [arr.slice(start, end)] for non-negative integer bounds. *)
Definition Array_slice {A : Type} (start stop : nat) (arr : list A) : list A :=
  take (stop - start) (drop start arr).

(** One step of the stable sort: [x] is placed after the elements that the
    comparator puts strictly before it ([compareFn y x < 0]) and before
    everything else. *)
Fixpoint sort_insert {A : Type} (compareFn : A -> A -> Q) (x : A) (sorted : list A) : list A :=
  match sorted with
  | [] => [x]
  | y :: rest =>
      if Qlt_bool (compareFn y x) 0
      then y :: sort_insert compareFn x rest
      else x :: y :: rest
  end.

(** [arr.sort(compareFn)]: ECMAScript requires the sort to be stable, and
    for a consistent comparator the stable order is unique; it is computed
    here by insertion from the right. *)
Definition Array_sort {A : Type} (compareFn : A -> A -> Q) (arr : list A) : list A :=
  foldr (sort_insert compareFn) [] arr.

(** The comparator [(a, b) => key(b) - key(a)], which sorts by descending
    key. *)
Definition descBy {A : Type} (key : A -> Q) (a b : A) : Q := (key b - key a)%Q.

(** [a] may stand before [b] in a list sorted by descending key. *)
Definition keyGe {A : Type} (key : A -> Q) (a b : A) : Prop := (key b <= key a)%Q.

(** ** The matcher *)

Section Matcher.

Variable fuzzySearch : string -> string -> Q.

(** [fuzzySearch(icon.name, query) * 2.0] *)
Definition nameScore (query : string) (i : Icon) : Q :=
  (fuzzySearch (name i) query * 2.0)%Q.

(** [aliases.length > 0 ? Math.max(...aliases.map(f)) * 1.8 : 0] *)
Definition aliasScore (query : string) (i : Icon) : Q :=
  match map (fun alias => fuzzySearch alias query) (aliases (data i)) with
  | [] => 0%Q
  | x :: xs => (Math_max x xs * 1.8)%Q
  end.

(** [categories.length > 0 ? Math.max(...categories.map(f)) : 0] *)
Definition categoryScore (query : string) (i : Icon) : Q :=
  match map (fun category => fuzzySearch category query) (categories (data i)) with
  | [] => 0%Q
  | x :: xs => Math_max x xs
  end.

(** The callback of [iconList.map]. *)
Definition scoreIcon (query : string) (i : Icon) : ScoredIcon :=
  let nameScore := nameScore query i in
  let aliasScore := aliasScore query i in
  let categoryScore := categoryScore query i in
  let score := Math_max nameScore [aliasScore; categoryScore] in
  {| icon := i;
     score := score;
     matchedField :=
       if Qeq_bool score nameScore then Name
       else if Qeq_bool score aliasScore then Alias
       else Category |}.

(** [(item) => item.score > 0.3] *)
Definition aboveThreshold (item : ScoredIcon) : bool :=
  Qlt_bool 0.3 (score item).

(** [(a, b) => b.score - a.score] *)
Definition byScoreDesc (a b : ScoredIcon) : Q :=
  (score b - score a)%Q.

(** [const scoredIcons = iconList.map(...)] *)
Definition scoredIcons (iconList : list Icon) (query : string) : list ScoredIcon :=
  map (scoreIcon query) iconList.

(** [getFilteredIcons(iconList, query)] on the contents of the array. *)
Definition getFilteredIcons (iconList : list Icon) (query : string) : list Icon :=
  if String.eqb query ""
  then Array_slice 0 8 iconList
  else
    map icon
      (Array_slice 0 20
         (Array_sort byScoreDesc
            (List.filter aboveThreshold (scoredIcons iconList query)))).

End Matcher.

(** ** The store

    Arrays are objects: [map], [filter] and [slice] allocate a new array,
    while [sort] reorders the array it is called on and returns that same
    array.  The store maps references to array contents; a method called
    on a reference that holds no array of the expected kind throws. *)

Definition loc : Type := nat.

Inductive JSArray : Type :=
  | IconArray (elems : list Icon)
  | ScoredArray (elems : list ScoredIcon).

Abbreviation heap := (gmap loc JSArray).

Inductive completion (A : Type) : Type :=
  | Normal (v : A) (h : heap)
  | Throw.

Arguments Normal {A} v h.
Arguments Throw {A}.

Definition M (A : Type) : Type := heap -> completion A.

Definition ret {A : Type} (v : A) : M A := fun h => Normal v h.

Definition bind {A B : Type} (c : M A) (k : A -> M B) : M B :=
  fun h =>
    match c h with
    | Normal v h' => k v h'
    | Throw => Throw
    end.

Notation "'let*' x ':=' c 'in' k" := (bind c (fun x => k))
  (at level 10, x binder, c at level 100, k at level 200).

(** A new array at a reference the store does not use yet. *)
Definition alloc (a : JSArray) : M loc :=
  fun h => let r := fresh (dom h) in Normal r (<[r := a]> h).

Definition readIcons (r : loc) : M (list Icon) :=
  fun h =>
    match h !! r with
    | Some (IconArray elems) => Normal elems h
    | _ => Throw
    end.

Definition readScored (r : loc) : M (list ScoredIcon) :=
  fun h =>
    match h !! r with
    | Some (ScoredArray elems) => Normal elems h
    | _ => Throw
    end.

(** Overwrite the contents of an existing array. *)
Definition store (r : loc) (a : JSArray) : M unit :=
  fun h => Normal tt (<[r := a]> h).

(** [icons.slice(start, end)] *)
Definition Icons_slice (r : loc) (start stop : nat) : M loc :=
  let* elems := readIcons r in
  alloc (IconArray (Array_slice start stop elems)).

(** [icons.map(f)] with [f] producing scored icons *)
Definition Icons_map (r : loc) (f : Icon -> ScoredIcon) : M loc :=
  let* elems := readIcons r in
  alloc (ScoredArray (map f elems)).

(** [scored.filter(p)] *)
Definition Scored_filter (r : loc) (p : ScoredIcon -> bool) : M loc :=
  let* elems := readScored r in
  alloc (ScoredArray (List.filter p elems)).

(** [scored.sort(compareFn)]: in place, the receiver is returned. *)
Definition Scored_sort (r : loc) (compareFn : ScoredIcon -> ScoredIcon -> Q) : M loc :=
  let* elems := readScored r in
  let* _ := store r (ScoredArray (Array_sort compareFn elems)) in
  ret r.

(** [scored.slice(start, end)] *)
Definition Scored_slice (r : loc) (start stop : nat) : M loc :=
  let* elems := readScored r in
  alloc (ScoredArray (Array_slice start stop elems)).

(** [scored.map(f)] with [f] producing icons *)
Definition Scored_map (r : loc) (f : ScoredIcon -> Icon) : M loc :=
  let* elems := readScored r in
  alloc (IconArray (map f elems)).

Section MatcherStore.

Variable fuzzySearch : string -> string -> Q.

(** [getFilteredIcons(iconList, query)] with [iconList] a reference into
    the store and the result a reference to the returned array. *)
Definition getFilteredIcons_st (iconList : loc) (query : string) : M loc :=
  if String.eqb query ""
  then Icons_slice iconList 0 8
  else
    let* scoredIcons := Icons_map iconList (scoreIcon fuzzySearch query) in
    let* filtered := Scored_filter scoredIcons aboveThreshold in
    let* sorted := Scored_sort filtered byScoreDesc in
    let* top := Scored_slice sorted 0 20 in
    Scored_map top icon.

End MatcherStore.

(** What a reference holds after a run, when it is an array of icons. *)
Definition iconsAt (h : heap) (r : loc) : option (list Icon) :=
  match h !! r with
  | Some (IconArray elems) => Some elems
  | _ => None
  end.

(** The icons of the array a run returns. *)
Definition resultIcons (c : completion loc) : option (list Icon) :=
  match c with
  | Normal r h => iconsAt h r
  | Throw => None
  end.

(** ** Specification-side notions *)

(** The score the matcher gives an icon. *)
Definition scoreOf (fuzzySearch : string -> string -> Q) (query : string) (i : Icon) : Q :=
  score (scoreIcon fuzzySearch query i).

(** The weighted score of one field. *)
Definition fieldScore (fuzzySearch : string -> string -> Q) (query : string)
    (i : Icon) (f : MatchedField) : Q :=
  match f with
  | Name => nameScore fuzzySearch query i
  | Alias => aliasScore fuzzySearch query i
  | Category => categoryScore fuzzySearch query i
  end.

(** ** Example data *)

(** A similarity function for the examples: 1 when the candidate contains
    the query at its start, 0 otherwise. *)
Definition prefixSearch (text query : string) : Q :=
  if String.prefix query text then 1%Q else 0%Q.

Definition demoIcon (n : string) (als cats : list string) : Icon :=
  {| name := n; data := {| categories := cats; aliases := als |} |}.

Definition github : Icon := demoIcon "github" ["git"] ["dev"].
Definition gitea : Icon := demoIcon "gitea" [] ["dev"; "git-hosting"].
Definition plex : Icon := demoIcon "plex" ["media-server"] ["media"].
Definition devbox : Icon := demoIcon "toolbox" ["devbox"] ["tools"].

(** Twenty-one icons of one category. *)
Definition mediaIcon (n : string) : Icon := demoIcon n [] ["media"].

Definition immich : Icon := mediaIcon "immich".

Definition mediaIcons : list Icon :=
  map mediaIcon
    ["plex"; "jellyfin"; "emby"; "kodi"; "sonarr"; "radarr"; "lidarr";
     "bazarr"; "tautulli"; "overseerr"; "ombi"; "navidrome"; "airsonic";
     "funkwhale"; "koel"; "mopidy"; "subsonic"; "ampache"; "stash";
     "photoprism"]
  ++ [immich].

Definition demoStore : heap := {[ 0%nat := IconArray [plex; devbox; gitea; github] ]}.

(** ** The component: open state, keyboard shortcut, selection

    The component keeps two pieces of state, [internalOpen] and [query],
    and receives the optional props [open] and [onOpenChange].  What the
    handlers do to the outside (the calls of [e.preventDefault],
    [onOpenChange] and [router.push]) is recorded as a list of effects.
    A handler reads the state of the render it was created in. *)

(** The props [open] and [onOpenChange].  [externalOpen] is [None] for
    [undefined]; [externalOnOpenChange] tells whether the callback is
    passed, its calls being recorded as effects. *)
Record Props : Type := mkProps {
  externalOpen : option bool;
  externalOnOpenChange : bool
}.

Record State : Type := mkState {
  internalOpen : bool;
  query : string
}.

(** [useState(false)] and [useState("")] *)
Definition initialState : State := {| internalOpen := false; query := "" |}.

Inductive Effect : Type :=
  | PreventDefault
  | CallOnOpenChange (value : bool)
  | RouterPush (path : string).

(** The fields of the keyboard event the handler reads. *)
Record KeyboardEvent : Type := mkKeyboardEvent {
  key : string;
  metaKey : bool;
  ctrlKey : bool
}.

(** [externalOpen !== undefined ? externalOpen : internalOpen] *)
Definition isOpen (p : Props) (st : State) : bool :=
  match externalOpen p with
  | Some v => v
  | None => internalOpen st
  end.

(** [setIsOpen(value)] *)
Definition setIsOpen (p : Props) (value : bool) (st : State) : State * list Effect :=
  if externalOnOpenChange p
  then (st, [CallOnOpenChange value])
  else ({| internalOpen := value; query := query st |}, []).

(** [document.activeElement?.tagName !== tag]; without an active element
    the left side is [undefined]. *)
Definition tagNameIsNot (activeTag : option string) (tag : string) : bool :=
  match activeTag with
  | Some t => negb (String.eqb t tag)
  | None => true
  end.

(** The condition of [handleKeyDown]. *)
Definition isShortcut (e : KeyboardEvent) (activeTag : option string) : bool :=
  (String.eqb (key e) "k" && (metaKey e || ctrlKey e))
  || (String.eqb (key e) "/"
      && tagNameIsNot activeTag "INPUT" && tagNameIsNot activeTag "TEXTAREA").

(** [handleKeyDown(e)] *)
Definition handleKeyDown (p : Props) (e : KeyboardEvent) (activeTag : option string)
    (st : State) : State * list Effect :=
  if isShortcut e activeTag
  then
    let (st', effects) := setIsOpen p (negb (isOpen p st)) st in
    (st', PreventDefault :: effects)
  else (st, []).

(** [handleSelect(name)] *)
Definition handleSelect (p : Props) (name : string) (st : State) : State * list Effect :=
  let (st', effects) := setIsOpen p false st in
  (st', (effects ++ [RouterPush ("/icons/" ++ name)])%list).

(** [setQuery(value)] *)
Definition setQuery (value : string) (st : State) : State :=
  {| internalOpen := internalOpen st; query := value |}.

(** What can happen to the component: a key is pressed in the document,
    the dialog asks to open or close ([onOpenChange={setIsOpen}]), the
    input changes ([onValueChange={setQuery}]), an item is selected
    ([onSelect={() => handleSelect(name)}]). *)
Inductive Event : Type :=
  | KeyDown (e : KeyboardEvent) (activeTag : option string)
  | DialogOpenChange (value : bool)
  | ValueChange (value : string)
  | Select (name : string).

Definition handle (p : Props) (ev : Event) (st : State) : State * list Effect :=
  match ev with
  | KeyDown e activeTag => handleKeyDown p e activeTag st
  | DialogOpenChange value => setIsOpen p value st
  | ValueChange value => (setQuery value st, [])
  | Select name => handleSelect p name st
  end.

(** A sequence of events, the component being rendered anew after each. *)
Fixpoint handleAll (p : Props) (evs : list Event) (st : State) : State * list Effect :=
  match evs with
  | [] => (st, [])
  | ev :: rest =>
      let (st1, effects1) := handle p ev st in
      let (st2, effects2) := handleAll p rest st1 in
      (st2, (effects1 ++ effects2)%list)
  end.

(** A sequence of events, each with the props of the render it happens
    in: the parent may pass other props from one render to the next. *)
Fixpoint handleEach (steps : list (Props * Event)) (st : State) : State * list Effect :=
  match steps with
  | [] => (st, [])
  | (p, ev) :: rest =>
      let (st1, effects1) := handle p ev st in
      let (st2, effects2) := handleEach rest st1 in
      (st2, (effects1 ++ effects2)%list)
  end.

(** [const filteredIcons = getFilteredIcons(icons, query)] *)
Definition filteredIcons (fuzzySearch : string -> string -> Q) (icons : list Icon)
    (st : State) : list Icon :=
  getFilteredIcons fuzzySearch icons (query st).

(** The paths handed to [router.push], in the order of the calls. *)
Definition routerPushes (effects : list Effect) : list string :=
  flat_map (fun eff => match eff with RouterPush path => [path] | _ => [] end) effects.

(** The number of calls of [e.preventDefault]. *)
Definition preventDefaults (effects : list Effect) : nat :=
  length (List.filter (fun eff => match eff with PreventDefault => true | _ => false end)
            effects).

(** The names selected in a sequence of events, in order. *)
Definition selections (evs : list Event) : list string :=
  flat_map (fun ev => match ev with Select name => [name] | _ => [] end) evs.

(** The number of key presses of a sequence of events that are the
    shortcut. *)
Definition shortcutPresses (evs : list Event) : nat :=
  length (List.filter
            (fun ev => match ev with KeyDown e activeTag => isShortcut e activeTag | _ => false end)
            evs).

(** The last value typed in a sequence of events, [q] if there is none. *)
Definition lastValue (evs : list Event) (q : string) : string :=
  fold_left (fun q ev => match ev with ValueChange value => value | _ => q end) evs q.

(** ** The rendered items

    Strings are sequences of characters.  The two regular expressions of
    the source have no flags, so they only ever match the ASCII hyphen and
    the ASCII characters of the class [\w]; every other character is
    copied. *)

(** [s.includes(sub)] *)
Fixpoint includes (s sub : string) : bool :=
  String.prefix sub s
  || match s with
     | EmptyString => false
     | String _ rest => includes rest sub
     end.

(** [s.replace(/-/g, " ")] *)
Fixpoint replaceHyphens (s : string) : string :=
  match s with
  | EmptyString => EmptyString
  | String c rest =>
      String (if Ascii.eqb c "-" then " "%char else c) (replaceHyphens rest)
  end.

(** The class [\w] of a regular expression without flags:
    [[A-Za-z0-9_]]. *)
Definition isWordChar (c : ascii) : bool :=
  let n := nat_of_ascii c in
  (Nat.leb 48 n && Nat.leb n 57) || (Nat.leb 65 n && Nat.leb n 90)
  || Nat.eqb n 95 || (Nat.leb 97 n && Nat.leb n 122).

(** The strings made of characters of the class [\w] only. *)
Fixpoint allWordChars (s : string) : bool :=
  match s with
  | EmptyString => true
  | String c rest => isWordChar c && allWordChars rest
  end.

(** [c.toUpperCase()] for a character [c] of the class [\w]. *)
Definition wordCharToUpperCase (c : ascii) : ascii :=
  let n := nat_of_ascii c in
  if Nat.leb 97 n && Nat.leb n 122 then ascii_of_nat (n - 32) else c.

(** What [s.replace(/\b\w/g, (c) => c.toUpperCase())] writes for the
    character [c]: a match is a character of the class [\w] that stands at
    the start of the string or after a character outside the class.
    [afterWord] tells whether the previous character is in the class. *)
Definition capitalized (afterWord : bool) (c : ascii) : ascii :=
  if isWordChar c && negb afterWord then wordCharToUpperCase c else c.

(** [s.replace(/\b\w/g, (c) => c.toUpperCase())], read from left to
    right. *)
Fixpoint capitalizeFrom (afterWord : bool) (s : string) : string :=
  match s with
  | EmptyString => EmptyString
  | String c rest =>
      String (capitalized afterWord c) (capitalizeFrom (isWordChar c) rest)
  end.

Definition capitalizeWords (s : string) : string := capitalizeFrom false s.

(** [category.replace(/-/g, " ").replace(/\b\w/g, (c) => c.toUpperCase())] *)
Definition categoryLabel (category : string) : string :=
  capitalizeWords (replaceHyphens category).

(** The value of [matchedAlias]: [null], or what [find] returns. *)
Inductive MatchedAlias : Type :=
  | AliasNull
  | AliasUndefined
  | AliasFound (alias : string).

(** A value used as a condition. *)
Definition truthy (m : MatchedAlias) : bool :=
  match m with
  | AliasFound alias => negb (String.eqb alias "")
  | _ => false
  end.

(** A line under the title of an item. *)
Inductive Subtitle : Type :=
  | AliasLine (alias : string)
  | CategoryLine (label : string).

Section Rendering.

(** [String.prototype.toLowerCase], a function of the language. *)
Variable toLowerCase : string -> string.

(** [query && aliases.length > 0
      ? aliases.find((alias) => alias.toLowerCase().includes(query.toLowerCase()))
      : null] *)
Definition matchedAlias (query : string) (d : IconData) : MatchedAlias :=
  if negb (String.eqb query "") && negb (Nat.eqb (length (aliases d)) 0)
  then
    match List.find (fun alias => includes (toLowerCase alias) (toLowerCase query))
            (aliases d) with
    | Some alias => AliasFound alias
    | None => AliasUndefined
    end
  else AliasNull.

(** The two conditional [span]s of an item, in the order of the source. *)
Definition subtitles (query : string) (d : IconData) : list Subtitle :=
  let matchedAlias := matchedAlias query d in
  ((match matchedAlias with
    | AliasFound alias => if truthy matchedAlias then [AliasLine alias] else []
    | _ => []
    end)
   ++
   (if negb (truthy matchedAlias)
    then
      match categories d with
      | [] => []
      | first :: _ => [CategoryLine (categoryLabel first)]
      end
    else []))%list.

End Rendering.

(** The [key] props of the rendered list, [key={name}]. *)
Definition itemKeys (fuzzySearch : string -> string -> Q) (icons : list Icon)
    (st : State) : list string :=
  map name (filteredIcons fuzzySearch icons st).

(** A lower-casing function for the examples: the letters [A-Z]. *)
Fixpoint asciiToLowerCase (s : string) : string :=
  match s with
  | EmptyString => EmptyString
  | String c rest =>
      let n := nat_of_ascii c in
      String (if Nat.leb 65 n && Nat.leb n 90 then ascii_of_nat (n + 32) else c)
        (asciiToLowerCase rest)
  end.

Definition uncontrolled : Props := {| externalOpen := None; externalOnOpenChange := false |}.

Definition ctrlK : KeyboardEvent := {| key := "k"; metaKey := false; ctrlKey := true |}.

Definition slash : KeyboardEvent := {| key := "/"; metaKey := false; ctrlKey := false |}.

(** ** The scoring and the ranking on binary64 numbers *)

(** The place of a number in the order of the IEEE comparison: the
    negative numbers by decreasing magnitude, the two zeros together, the
    positive numbers by increasing magnitude; NaN is outside the order
    and is given the last place. *)
Definition sfKey (f : spec_float) : Z * Z * Z :=
  match f with
  | S754_infinity true => (-2, 0, 0)
  | S754_finite true m e => (-1, - e, - Zpos m)
  | S754_zero _ => (0, 0, 0)
  | S754_finite false m e => (1, e, Zpos m)
  | S754_infinity false => (2, 0, 0)
  | S754_nan => (3, 0, 0)
  end%Z.

Definition lexLt (a b : Z * Z * Z) : Prop :=
  (a.1.1 < b.1.1 \/ (a.1.1 = b.1.1 /\ (a.1.2 < b.1.2 \/ (a.1.2 = b.1.2 /\ a.2 < b.2))))%Z.

Definition lexEq (a b : Z * Z * Z) : Prop :=
  a.1.1 = b.1.1 /\ a.1.2 = b.1.2 /\ a.2 = b.2.

Definition fkey (x : float) : Z * Z * Z := sfKey (Prim2SF x).

(** A number above zero: finite with the sign bit clear, or infinity. *)
Definition positiveSF (x : spec_float) : Prop :=
  x = S754_infinity false \/ exists m e, x = S754_finite false m e.

Abbreviation emin64 := (SpecFloat.emin prec emax).

Module Binary64.

Local Open Scope float_scope.

(** The object literal [{ icon, score, matchedField }]. *)
Record ScoredIcon : Type := mkScoredIcon {
  icon : Icon;
  score : float;
  matchedField : MatchedField
}.

(** One step of [Math.max]: NaN once met is the result; [+0] replaces
    [-0]; otherwise a number replaces the highest so far when it is
    greater. *)
Definition max2 (highest number : float) : float :=
  if is_nan highest then highest
  else if is_nan number then nan
  else if Leibniz.eqb number zero && Leibniz.eqb highest neg_zero then number
  else if highest <? number then number
  else highest.

(** [Math.max(...values)], which is [-Infinity] without arguments. *)
Definition Math_max (values : list float) : float :=
  fold_left max2 values neg_infinity.

(** One step of the stable sort: [x] goes after the elements the
    comparator puts strictly before it ([compareFn y x < 0]) and before
    everything else.  A comparator result that is NaN is not below zero,
    as in the language, where it counts as [+0]. *)
Fixpoint sort_insert {A : Type} (compareFn : A -> A -> float) (x : A) (sorted : list A)
    : list A :=
  match sorted with
  | [] => [x]
  | y :: rest =>
      if compareFn y x <? 0
      then y :: sort_insert compareFn x rest
      else x :: y :: rest
  end.

(** [arr.sort(compareFn)], the stable sort, by insertion from the right. *)
Definition Array_sort {A : Type} (compareFn : A -> A -> float) (arr : list A) : list A :=
  foldr (sort_insert compareFn) [] arr.

(** The comparator [(a, b) => key(b) - key(a)]. *)
Definition descBy {A : Type} (key : A -> float) (a b : A) : float := key b - key a.

(** [a] may stand before [b] in a list sorted by descending key. *)
Definition keyGe {A : Type} (key : A -> float) (a b : A) : Prop :=
  (key b <=? key a) = true.

(** [m] is the maximum of the numbers in [l], for the comparison and the
    equality of the language. *)
Definition is_max (m : float) (l : list float) : Prop :=
  (exists x, In x l /\ (x =? m) = true) /\ (forall x, In x l -> (x <=? m) = true).

Section Matcher.

Variable fuzzySearch : string -> string -> float.

(** [fuzzySearch(icon.name, query) * 2.0] *)
Definition nameScore (query : string) (i : Icon) : float :=
  fuzzySearch (name i) query * 2.0.

(** [aliases.length > 0 ? Math.max(...aliases.map(f)) * 1.8 : 0] *)
Definition aliasScore (query : string) (i : Icon) : float :=
  match aliases (data i) with
  | [] => 0
  | _ :: _ => Math_max (map (fun alias => fuzzySearch alias query) (aliases (data i))) * 1.8
  end.

(** [categories.length > 0 ? Math.max(...categories.map(f)) : 0] *)
Definition categoryScore (query : string) (i : Icon) : float :=
  match categories (data i) with
  | [] => 0
  | _ :: _ => Math_max (map (fun category => fuzzySearch category query) (categories (data i)))
  end.

(** The callback of [iconList.map]. *)
Definition scoreIcon (query : string) (i : Icon) : ScoredIcon :=
  let nameScore := nameScore query i in
  let aliasScore := aliasScore query i in
  let categoryScore := categoryScore query i in
  let score := Math_max [nameScore; aliasScore; categoryScore] in
  {| icon := i;
     score := score;
     matchedField :=
       if score =? nameScore then Name
       else if score =? aliasScore then Alias
       else Category |}.

(** [(item) => item.score > 0.3] *)
Definition aboveThreshold (item : ScoredIcon) : bool := 0.3 <? score item.

(** [(a, b) => b.score - a.score] *)
Definition byScoreDesc (a b : ScoredIcon) : float := score b - score a.

(** [const scoredIcons = iconList.map(...)] *)
Definition scoredIcons (iconList : list Icon) (query : string) : list ScoredIcon :=
  map (scoreIcon query) iconList.

(** [getFilteredIcons(iconList, query)] on the contents of the array. *)
Definition getFilteredIcons (iconList : list Icon) (query : string) : list Icon :=
  if String.eqb query ""
  then Array_slice 0 8 iconList
  else
    map icon
      (Array_slice 0 20
         (Array_sort byScoreDesc
            (List.filter aboveThreshold (scoredIcons iconList query)))).

(** The score the matcher gives an icon. *)
Definition scoreOf (query : string) (i : Icon) : float := score (scoreIcon query i).

(** The weighted score of one field. *)
Definition fieldScore (query : string) (i : Icon) (f : MatchedField) : float :=
  match f with
  | Name => nameScore query i
  | Alias => aliasScore query i
  | Category => categoryScore query i
  end.

(** The icons of a list whose score equals the number [s]. *)
Definition withScore (query : string) (s : float) (l : list Icon) : list Icon :=
  List.filter (fun i => scoreOf query i =? s) l.

(** The icons of a list that pass the filter. *)
Definition above (query : string) (l : list Icon) : list Icon :=
  List.filter (fun i => aboveThreshold (scoreIcon query i)) l.

End Matcher.

(** Similarity functions for the examples: 1 when the candidate starts
    with the query and 0 otherwise; and a table of similarities by
    candidate. *)
Definition prefixSearch (text query : string) : float :=
  if String.prefix query text then 1 else 0.

Fixpoint tableSearch (table : list (string * float)) (text query : string) : float :=
  match table with
  | [] => 0
  | (candidate, similarity) :: rest =>
      if String.eqb candidate text then similarity else tableSearch rest text query
  end.

End Binary64.

(** Similarities for which the rounding of the product with 1.8 decides:
    [0.36 * 2.0] is [0.72] and [0.4 * 1.8] is [0.7200000000000001]. *)
Definition roundingSearch : string -> string -> float :=
  Binary64.tableSearch [("by-name", 0.36%float); ("the-alias", 0.4%float)].

(** Similarities that tie after rounding: [0.45 * 2.0] and [0.5 * 1.8]
    are both [0.9]. *)
Definition tieSearch : string -> string -> float :=
  Binary64.tableSearch [("by-name", 0.45%float); ("the-alias", 0.5%float)].

(** Twenty icons found by their alias. *)
Definition aliasIcons : list Icon :=
  map (fun n => demoIcon n ["the-alias"] [])
    ["plex"; "jellyfin"; "emby"; "kodi"; "sonarr"; "radarr"; "lidarr";
     "bazarr"; "tautulli"; "overseerr"; "ombi"; "navidrome"; "airsonic";
     "funkwhale"; "koel"; "mopidy"; "subsonic"; "ampache"; "stash";
     "photoprism"].

Definition byName : Icon := demoIcon "by-name" [] [].
Definition byAlias : Icon := demoIcon "by-alias" ["the-alias"] [].
Definition byBoth : Icon := demoIcon "by-name" ["the-alias"] [].

(** * Properties *)

(** ** Numbers *)


Lemma Qlt_bool_false_iff (x y : Q) : Qlt_bool x y = false <-> (y <= x)%Q.
Proof.
  unfold Qlt_bool. rewrite negb_false_iff. apply Qle_bool_iff.
Qed.





(** ** The stable sort *)

Section SortGeneric.

Context {A : Type} (compareFn : A -> A -> Q).

Lemma sort_insert_Permutation (x : A) (l : list A) :
  sort_insert compareFn x l ≡ₚ x :: l.
Proof.
  induction l as [| y l IH]; simpl; [reflexivity |].
  destruct (Qlt_bool (compareFn y x) 0); [| reflexivity].
  rewrite IH. apply Permutation_swap.
Qed.

Lemma Array_sort_Permutation (l : list A) : Array_sort compareFn l ≡ₚ l.
Proof.
  induction l as [| x l IH]; simpl; [reflexivity |].
  rewrite sort_insert_Permutation. now rewrite IH.
Qed.

Lemma Array_sort_length (l : list A) : length (Array_sort compareFn l) = length l.
Proof. now rewrite Array_sort_Permutation. Qed.

(** Sorting an image under [g] is sorting with the comparator pulled back
    along [g]. *)
Lemma sort_insert_map {B : Type} (g : B -> A) (x : B) (l : list B) :
  sort_insert compareFn (g x) (map g l) =
  map g (sort_insert (fun a b => compareFn (g a) (g b)) x l).
Proof.
  induction l as [| y l IH]; simpl; [reflexivity |].
  destruct (Qlt_bool (compareFn (g y) (g x)) 0); simpl; [| reflexivity].
  now rewrite IH.
Qed.

Lemma Array_sort_map {B : Type} (g : B -> A) (l : list B) :
  Array_sort compareFn (map g l) =
  map g (Array_sort (fun a b => compareFn (g a) (g b)) l).
Proof.
  unfold Array_sort.
  induction l as [| x l IH]; simpl; [reflexivity |].
  rewrite IH. apply sort_insert_map.
Qed.


End SortGeneric.

(** Sorting by a numeric key in descending order, the comparator being
    [(a, b) => key(b) - key(a)]. *)
Section SortByKey.

Context {A : Type} (key : A -> Q).

Let desc : A -> A -> Q := descBy key.







End SortByKey.

(** ** The matcher as a function of the icons *)

Section MatcherFacts.

Variable fuzzySearch : string -> string -> Q.

Lemma Array_slice_0 {A : Type} (n : nat) (l : list A) : Array_slice 0 n l = take n l.
Proof. unfold Array_slice. now rewrite Nat.sub_0_r, drop_0. Qed.

Lemma filter_map_comm {A B : Type} (p : B -> bool) (g : A -> B) (l : list A) :
  List.filter p (map g l) = map g (List.filter (fun a => p (g a)) l).
Proof.
  induction l as [| a l IH]; simpl; [reflexivity |].
  destruct (p (g a)); simpl; now rewrite IH.
Qed.

Lemma getFilteredIcons_empty (iconList : list Icon) :
  getFilteredIcons fuzzySearch iconList "" = take 8 iconList.
Proof. unfold getFilteredIcons. simpl. apply Array_slice_0. Qed.

(** For a non-empty query the result is the first 20 icons of the stable
    descending sort, by score, of the icons above the threshold. *)
Lemma getFilteredIcons_nonempty (iconList : list Icon) (query : string) :
  query <> "" ->
  getFilteredIcons fuzzySearch iconList query =
  take 20
    (Array_sort (descBy (scoreOf fuzzySearch query))
       (List.filter (fun i => Qlt_bool 0.3 (scoreOf fuzzySearch query i)) iconList)).
Proof.
  intros Hq. unfold getFilteredIcons.
  apply String.eqb_neq in Hq. rewrite Hq.
  unfold scoredIcons. rewrite Array_slice_0, filter_map_comm.
  change byScoreDesc with (descBy score).
  rewrite Array_sort_map, <- firstn_map, map_map.
  change (fun a b => descBy score (scoreIcon fuzzySearch query a) (scoreIcon fuzzySearch query b))
    with (descBy (scoreOf fuzzySearch query)).
  change (fun a => aboveThreshold (scoreIcon fuzzySearch query a))
    with (fun i => Qlt_bool 0.3 (scoreOf fuzzySearch query i)).
  f_equal. exact (map_id _).
Qed.

Lemma filter_sublist {A : Type} (p : A -> bool) (l : list A) :
  List.filter p l `sublist_of` l.
Proof.
  induction l as [| a l IH]; simpl; [constructor |].
  destruct (p a); now constructor.
Qed.

(** The result is a sub-multiset of the input, whatever the query. *)
Lemma getFilteredIcons_submseteq (iconList : list Icon) (query : string) :
  getFilteredIcons fuzzySearch iconList query ⊆+ iconList.
Proof.
  destruct (decide (query = "")) as [-> | Hq].
  - rewrite getFilteredIcons_empty. apply sublist_submseteq, sublist_take.
  - rewrite getFilteredIcons_nonempty by exact Hq.
    etransitivity; [apply sublist_submseteq, sublist_take |].
    etransitivity; [apply Permutation_submseteq, Array_sort_Permutation |].
    apply sublist_submseteq, filter_sublist.
Qed.

End MatcherFacts.

(** ** The array methods on the store *)

Lemma alloc_spec (a : JSArray) (h : heap) :
  exists r, alloc a h = Normal r (<[r := a]> h) /\ h !! r = None.
Proof.
  exists (fresh (dom h)). split; [reflexivity |].
  apply not_elem_of_dom, is_fresh.
Qed.

Lemma Icons_slice_spec (r : loc) (start stop : nat) (h : heap) (elems : list Icon) :
  h !! r = Some (IconArray elems) ->
  exists r', Icons_slice r start stop h =
               Normal r' (<[r' := IconArray (Array_slice start stop elems)]> h)
             /\ h !! r' = None.
Proof.
  intros Hr. unfold Icons_slice, bind, readIcons. rewrite Hr. apply alloc_spec.
Qed.

Lemma Icons_map_spec (r : loc) (f : Icon -> ScoredIcon) (h : heap) (elems : list Icon) :
  h !! r = Some (IconArray elems) ->
  exists r', Icons_map r f h = Normal r' (<[r' := ScoredArray (map f elems)]> h)
             /\ h !! r' = None.
Proof.
  intros Hr. unfold Icons_map, bind, readIcons. rewrite Hr. apply alloc_spec.
Qed.

Lemma Scored_filter_spec (r : loc) (p : ScoredIcon -> bool) (h : heap)
    (elems : list ScoredIcon) :
  h !! r = Some (ScoredArray elems) ->
  exists r', Scored_filter r p h =
               Normal r' (<[r' := ScoredArray (List.filter p elems)]> h)
             /\ h !! r' = None.
Proof.
  intros Hr. unfold Scored_filter, bind, readScored. rewrite Hr. apply alloc_spec.
Qed.

(** [sort] allocates nothing: it overwrites its receiver. *)
Lemma Scored_sort_spec (r : loc) (compareFn : ScoredIcon -> ScoredIcon -> Q)
    (h : heap) (elems : list ScoredIcon) :
  h !! r = Some (ScoredArray elems) ->
  Scored_sort r compareFn h =
  Normal r (<[r := ScoredArray (Array_sort compareFn elems)]> h).
Proof.
  intros Hr. unfold Scored_sort, bind, readScored. now rewrite Hr.
Qed.

Lemma Scored_slice_spec (r : loc) (start stop : nat) (h : heap)
    (elems : list ScoredIcon) :
  h !! r = Some (ScoredArray elems) ->
  exists r', Scored_slice r start stop h =
               Normal r' (<[r' := ScoredArray (Array_slice start stop elems)]> h)
             /\ h !! r' = None.
Proof.
  intros Hr. unfold Scored_slice, bind, readScored. rewrite Hr. apply alloc_spec.
Qed.

Lemma Scored_map_spec (r : loc) (f : ScoredIcon -> Icon) (h : heap)
    (elems : list ScoredIcon) :
  h !! r = Some (ScoredArray elems) ->
  exists r', Scored_map r f h = Normal r' (<[r' := IconArray (map f elems)]> h)
             /\ h !! r' = None.
Proof.
  intros Hr. unfold Scored_map, bind, readScored. rewrite Hr. apply alloc_spec.
Qed.

(** ** The matcher on the store *)

Section MatcherStoreFacts.

Variable fuzzySearch : string -> string -> Q.

(** A run on a reference that holds an array of icons returns normally.
    The returned reference is new, it holds what [getFilteredIcons]
    computes from the contents of the input array, and every array of the
    initial store is still there with the contents it had. *)
Lemma getFilteredIcons_st_spec (h : heap) (iconList : loc) (icons : list Icon)
    (query : string) :
  h !! iconList = Some (IconArray icons) ->
  exists r h',
    getFilteredIcons_st fuzzySearch iconList query h = Normal r h' /\
    h' !! r = Some (IconArray (getFilteredIcons fuzzySearch icons query)) /\
    h !! r = None /\
    h ⊆ h'.
Proof.
  intros Hl. unfold getFilteredIcons_st, getFilteredIcons.
  destruct (String.eqb query "").
  - destruct (Icons_slice_spec iconList 0 8 h icons Hl) as (r & Hrun & Hfresh).
    exists r, (<[r := IconArray (Array_slice 0 8 icons)]> h).
    split; [exact Hrun |]. split; [apply lookup_insert_eq |].
    split; [exact Hfresh | now apply insert_subseteq].
  - destruct (Icons_map_spec iconList (scoreIcon fuzzySearch query) h icons Hl)
      as (r1 & Hrun1 & Hfresh1).
    set (h1 := <[r1 := ScoredArray (map (scoreIcon fuzzySearch query) icons)]> h) in *.
    destruct (Scored_filter_spec r1 aboveThreshold h1 _ (lookup_insert_eq _ _ _))
      as (r2 & Hrun2 & Hfresh2).
    set (filtered := List.filter aboveThreshold (map (scoreIcon fuzzySearch query) icons)) in *.
    set (h2 := <[r2 := ScoredArray filtered]> h1) in *.
    pose proof (Scored_sort_spec r2 byScoreDesc h2 _ (lookup_insert_eq _ _ _)) as Hrun3.
    set (h3 := <[r2 := ScoredArray (Array_sort byScoreDesc filtered)]> h2) in *.
    destruct (Scored_slice_spec r2 0 20 h3 _ (lookup_insert_eq _ _ _))
      as (r4 & Hrun4 & Hfresh4).
    set (h4 := <[r4 := ScoredArray (Array_slice 0 20 (Array_sort byScoreDesc filtered))]> h3) in *.
    destruct (Scored_map_spec r4 icon h4 _ (lookup_insert_eq _ _ _))
      as (r5 & Hrun5 & Hfresh5).
    assert (Hsub1 : h ⊆ h1) by now apply insert_subseteq.
    assert (Hsub2 : h ⊆ h2) by (etransitivity; [exact Hsub1 | now apply insert_subseteq]).
    assert (Hsub3 : h ⊆ h3).
    { apply insert_subseteq_r; [| exact Hsub2].
      eapply lookup_weaken_None; [exact Hfresh2 | exact Hsub1]. }
    assert (Hsub4 : h ⊆ h4) by (etransitivity; [exact Hsub3 | now apply insert_subseteq]).
    eexists r5, _. split; [| split; [| split]].
    + unfold bind. rewrite Hrun1, Hrun2, Hrun3, Hrun4. exact Hrun5.
    + apply lookup_insert_eq.
    + eapply lookup_weaken_None; [exact Hfresh5 | exact Hsub4].
    + etransitivity; [exact Hsub4 | now apply insert_subseteq].
Qed.

End MatcherStoreFacts.

(** ** Scoring *)

Section ScoringFacts.

Variable fuzzySearch : string -> string -> Q.

Lemma icon_scoreIcon (query : string) (i : Icon) :
  icon (scoreIcon fuzzySearch query i) = i.
Proof. reflexivity. Qed.





Section Range.

Hypothesis fuzzySearch_range : forall text query, (0 <= fuzzySearch text query <= 1)%Q.





End Range.

End ScoringFacts.




(** ** Ranking *)

Section RankingFacts.

Variable fuzzySearch : string -> string -> Q.

Lemma filter_take_prefix {A : Type} (p : A -> bool) (n : nat) (l : list A) :
  List.filter p (take n l) `prefix_of` List.filter p l.
Proof.
  exists (List.filter p (drop n l)).
  now rewrite <- List.filter_app, take_drop.
Qed.

(** Filtering a class after a filter that is constant on the class. *)
Lemma filter_filter_class {A : Type} (p q : A -> bool) (b : bool) (l : list A) :
  (forall x, p x = true -> q x = b) ->
  List.filter p (List.filter q l) = if b then List.filter p l else [].
Proof.
  intros Hpq. induction l as [| x l IH]; simpl; [now destruct b |].
  destruct (p x) eqn:Hp.
  - rewrite (Hpq x Hp). destruct b; simpl; [now rewrite Hp, IH | exact IH].
  - destruct (q x); simpl; [rewrite Hp |]; rewrite IH; now destruct b.
Qed.

Lemma filter_sublist_mono {A : Type} (p : A -> bool) (l1 l2 : list A) :
  l1 `sublist_of` l2 -> List.filter p l1 `sublist_of` List.filter p l2.
Proof.
  induction 1 as [| x l1 l2 _ IH | x l1 l2 _ IH]; simpl.
  - constructor.
  - destruct (p x); [now constructor | exact IH].
  - destruct (p x); [now constructor | exact IH].
Qed.

Lemma prefix_sublist {A : Type} (l1 l2 : list A) :
  l1 `prefix_of` l2 -> l1 `sublist_of` l2.
Proof. intros [k ->]. now apply sublist_inserts_r. Qed.


End RankingFacts.

(** C4: whatever the input and the query, at most 20 icons are returned,
    and at most 8 for the empty query. *)
Theorem result_length_bound
    (fuzzySearch : string -> string -> Q) (iconList : list Icon) (query : string) :
  (length (getFilteredIcons fuzzySearch iconList query) <= 20)%nat /\
  (length (getFilteredIcons fuzzySearch iconList "") <= 8)%nat.
Proof.
  split.
  - destruct (decide (query = "")) as [-> | Hq].
    + rewrite getFilteredIcons_empty, length_take. lia.
    + rewrite getFilteredIcons_nonempty by exact Hq. rewrite length_take. lia.
  - rewrite getFilteredIcons_empty, length_take. lia.
Qed.

(** C5: for the empty query the result is the first 8 icons of the input
    in input order, that is its first [min 8 (length iconList)] icons, and
    it is the same for every similarity function. *)
Theorem empty_query_first_eight
    (fuzzySearch : string -> string -> Q) (iconList : list Icon) :
  getFilteredIcons fuzzySearch iconList "" = take 8 iconList /\
  length (getFilteredIcons fuzzySearch iconList "") = Nat.min 8 (length iconList) /\
  (forall i (x : Icon),
     getFilteredIcons fuzzySearch iconList "" !! i = Some x <->
     (i < 8)%nat /\ iconList !! i = Some x) /\
  (forall otherSearch : string -> string -> Q,
     getFilteredIcons otherSearch iconList "" = getFilteredIcons fuzzySearch iconList "").
Proof.
  rewrite getFilteredIcons_empty. split; [reflexivity |].
  split; [apply length_take |]. split.
  - intros i x. rewrite lookup_take_Some. tauto.
  - intros otherSearch. now rewrite getFilteredIcons_empty.
Qed.

(** ** Runs on the store *)

Lemma submseteq_NoDup {A : Type} (l k : list A) : l ⊆+ k -> NoDup k -> NoDup l.
Proof.
  intros Hsub Hk. apply submseteq_Permutation in Hsub as [k' Hperm].
  rewrite Hperm in Hk. now apply NoDup_app in Hk as [Hl _].
Qed.

Lemma getFilteredIcons_nil (fuzzySearch : string -> string -> Q) (query : string) :
  getFilteredIcons fuzzySearch [] query = [].
Proof.
  destruct (decide (query = "")) as [-> | Hq].
  - now rewrite getFilteredIcons_empty.
  - now rewrite getFilteredIcons_nonempty by exact Hq.
Qed.

Lemma getFilteredIcons_no_match (fuzzySearch : string -> string -> Q)
    (iconList : list Icon) (query : string) :
  query <> "" ->
  (forall i, In i iconList -> (scoreOf fuzzySearch query i <= 0.3)%Q) ->
  getFilteredIcons fuzzySearch iconList query = [].
Proof.
  intros Hq Hlow. rewrite getFilteredIcons_nonempty by exact Hq.
  replace (List.filter (fun i => Qlt_bool 0.3 (scoreOf fuzzySearch query i)) iconList)
    with (@nil Icon); [reflexivity |].
  symmetry. induction iconList as [| i l IH]; simpl; [reflexivity |].
  assert (Qlt_bool 0.3 (scoreOf fuzzySearch query i) = false) as ->
    by (apply Qlt_bool_false_iff, Hlow; now left).
  apply IH. intros j Hj. apply Hlow. now right.
Qed.

(** C8: a run on an array of icons never throws.  It returns an array of
    icons, which is empty when the input array is empty, whatever the
    query, and empty when the query is not empty and no icon scores above
    the threshold. *)
Theorem no_error_outcomes
    (fuzzySearch : string -> string -> Q) (h : heap) (iconList : loc)
    (icons : list Icon) (query : string) :
  h !! iconList = Some (IconArray icons) ->
  exists r h' result,
    getFilteredIcons_st fuzzySearch iconList query h = Normal r h' /\
    h' !! r = Some (IconArray result) /\
    (icons = [] -> result = []) /\
    (query <> "" ->
     (forall i, In i icons -> (scoreOf fuzzySearch query i <= 0.3)%Q) ->
     result = []).
Proof.
  intros Hl.
  destruct (getFilteredIcons_st_spec fuzzySearch h iconList icons query Hl)
    as (r & h' & Hrun & Hres & _ & _).
  exists r, h', (getFilteredIcons fuzzySearch icons query).
  split; [exact Hrun |]. split; [exact Hres |]. split.
  - intros ->. apply getFilteredIcons_nil.
  - apply getFilteredIcons_no_match.
Qed.

Lemma no_error_outcomes_witness :
  demoStore !! 0%nat = Some (IconArray [plex; devbox; gitea; github]) /\
  exists r h' result,
    getFilteredIcons_st prefixSearch 0%nat "zzz-nomatch" demoStore = Normal r h' /\
    h' !! r = Some (IconArray result) /\
    ([plex; devbox; gitea; github] = [] -> result = []) /\
    ("zzz-nomatch" <> "" ->
     (forall i, In i [plex; devbox; gitea; github] ->
        (scoreOf prefixSearch "zzz-nomatch" i <= 0.3)%Q) ->
     result = []).
Proof.
  assert (Hl : demoStore !! 0%nat = Some (IconArray [plex; devbox; gitea; github]))
    by reflexivity.
  split; [exact Hl |].
  exact (no_error_outcomes prefixSearch demoStore 0%nat _ "zzz-nomatch" Hl).
Defined.

(** C9: two runs with the same similarity function and the same query, on
    arrays with the same contents, return arrays with the same contents,
    whatever else the two stores hold and wherever the arrays live; and a
    run changes no array of the store it starts from. *)
Theorem search_deterministic
    (fuzzySearch : string -> string -> Q) (h1 h2 : heap) (l1 l2 : loc)
    (icons : list Icon) (query : string) :
  h1 !! l1 = Some (IconArray icons) ->
  h2 !! l2 = Some (IconArray icons) ->
  resultIcons (getFilteredIcons_st fuzzySearch l1 query h1) =
    resultIcons (getFilteredIcons_st fuzzySearch l2 query h2) /\
  resultIcons (getFilteredIcons_st fuzzySearch l1 query h1) =
    Some (getFilteredIcons fuzzySearch icons query) /\
  (forall r h', getFilteredIcons_st fuzzySearch l1 query h1 = Normal r h' -> h1 ⊆ h').
Proof.
  intros H1 H2.
  destruct (getFilteredIcons_st_spec fuzzySearch h1 l1 icons query H1)
    as (r1 & h1' & Hrun1 & Hres1 & _ & Hsub1).
  destruct (getFilteredIcons_st_spec fuzzySearch h2 l2 icons query H2)
    as (r2 & h2' & Hrun2 & Hres2 & _ & _).
  rewrite Hrun1, Hrun2. unfold resultIcons, iconsAt. rewrite Hres1, Hres2.
  split; [reflexivity |]. split; [reflexivity |].
  intros r h' [= <- <-]. exact Hsub1.
Qed.

Lemma search_deterministic_witness :
  demoStore !! 0%nat = Some (IconArray [plex; devbox; gitea; github]) /\
  (<[7%nat := IconArray [plex; devbox; gitea; github]]> demoStore) !! 7%nat =
    Some (IconArray [plex; devbox; gitea; github]) /\
  resultIcons (getFilteredIcons_st prefixSearch 0%nat "git" demoStore) =
    resultIcons (getFilteredIcons_st prefixSearch 7%nat "git"
                   (<[7%nat := IconArray [plex; devbox; gitea; github]]> demoStore)).
Proof.
  assert (H1 : demoStore !! 0%nat = Some (IconArray [plex; devbox; gitea; github]))
    by reflexivity.
  assert (H2 : (<[7%nat := IconArray [plex; devbox; gitea; github]]> demoStore) !! 7%nat =
               Some (IconArray [plex; devbox; gitea; github]))
    by reflexivity.
  split; [exact H1 |]. split; [exact H2 |].
  exact (proj1 (search_deterministic prefixSearch demoStore _ 0%nat 7%nat _ "git" H1 H2)).
Defined.

(** C10: the returned array holds icons of the input array only, each at
    most as often as the input array holds it (so without repetition when
    the input has none), and it is a new array; the input array and every
    other array of the initial store keep their contents, the array that
    [sort] reorders being one the run allocated. *)
Theorem result_within_input_and_input_unchanged
    (fuzzySearch : string -> string -> Q) (h : heap) (iconList : loc)
    (icons : list Icon) (query : string) :
  h !! iconList = Some (IconArray icons) ->
  exists r h' result,
    getFilteredIcons_st fuzzySearch iconList query h = Normal r h' /\
    h' !! r = Some (IconArray result) /\
    (forall i, In i result -> In i icons) /\
    result ⊆+ icons /\
    (NoDup icons -> NoDup result) /\
    h' !! iconList = Some (IconArray icons) /\
    h !! r = None /\
    (forall l a, h !! l = Some a -> h' !! l = Some a).
Proof.
  intros Hl.
  destruct (getFilteredIcons_st_spec fuzzySearch h iconList icons query Hl)
    as (r & h' & Hrun & Hres & Hfresh & Hsub).
  pose proof (getFilteredIcons_submseteq fuzzySearch icons query) as Hms.
  exists r, h', (getFilteredIcons fuzzySearch icons query).
  split; [exact Hrun |]. split; [exact Hres |]. split.
  { intros i Hi. apply list_elem_of_In. eapply elem_of_submseteq; [| exact Hms].
    now apply list_elem_of_In. }
  split; [exact Hms |]. split; [now apply submseteq_NoDup |].
  split; [eapply lookup_weaken; [exact Hl | exact Hsub] |].
  split; [exact Hfresh |].
  intros l a Ha. eapply lookup_weaken; [exact Ha | exact Hsub].
Qed.

Lemma result_within_input_and_input_unchanged_witness :
  demoStore !! 0%nat = Some (IconArray [plex; devbox; gitea; github]) /\
  exists r h' result,
    getFilteredIcons_st prefixSearch 0%nat "dev" demoStore = Normal r h' /\
    h' !! r = Some (IconArray result) /\
    (forall i, In i result -> In i [plex; devbox; gitea; github]) /\
    result ⊆+ [plex; devbox; gitea; github] /\
    (NoDup [plex; devbox; gitea; github] -> NoDup result) /\
    h' !! 0%nat = Some (IconArray [plex; devbox; gitea; github]) /\
    demoStore !! r = None /\
    (forall l a, demoStore !! l = Some a -> h' !! l = Some a).
Proof.
  assert (Hl : demoStore !! 0%nat = Some (IconArray [plex; devbox; gitea; github]))
    by reflexivity.
  split; [exact Hl |].
  exact (result_within_input_and_input_unchanged prefixSearch demoStore 0%nat _ "dev" Hl).
Defined.

(** ** Examples *)

Example getFilteredIcons_empty_query :
  getFilteredIcons prefixSearch [github] "" = [github].
Proof. reflexivity. Qed.

Example getFilteredIcons_git :
  getFilteredIcons prefixSearch [plex; devbox; gitea; github] "git" = [gitea; github].
Proof. vm_compute. reflexivity. Qed.

Example getFilteredIcons_dev :
  getFilteredIcons prefixSearch [plex; devbox; gitea; github] "dev" = [devbox; gitea; github].
Proof. vm_compute. reflexivity. Qed.

Example scoreIcon_alias :
  matchedField (scoreIcon prefixSearch "dev" devbox) = Alias.
Proof. vm_compute. reflexivity. Qed.

Example getFilteredIcons_st_dev :
  resultIcons (getFilteredIcons_st prefixSearch 0%nat "dev" demoStore) =
  Some [devbox; gitea; github].
Proof. vm_compute. reflexivity. Qed.

Example getFilteredIcons_st_dangling :
  getFilteredIcons_st prefixSearch 3%nat "dev" demoStore = Throw.
Proof. vm_compute. reflexivity. Qed.

Example getFilteredIcons_media_length :
  length (getFilteredIcons prefixSearch mediaIcons "media") = 20%nat.
Proof. vm_compute. reflexivity. Qed.

(** * Further properties *)

(** ** Ranking *)

Section RankingMore.

Variable fuzzySearch : string -> string -> Q.


Lemma In_take {A : Type} (n : nat) (x : A) (l : list A) : In x (take n l) -> In x l.
Proof.
  intros Hin. apply list_elem_of_In. apply (subseteq_take n l).
  now apply list_elem_of_In.
Qed.


End RankingMore.

(** X1: for a non-empty query the number of returned icons is the number
    of input icons that score above 0.3, capped at 20. *)
Theorem result_length_exact
    (fuzzySearch : string -> string -> Q) (iconList : list Icon) (query : string) :
  query <> "" ->
  length (getFilteredIcons fuzzySearch iconList query) =
  Nat.min 20
    (length (List.filter (fun i => aboveThreshold (scoreIcon fuzzySearch query i)) iconList)).
Proof.
  intros Hq. rewrite getFilteredIcons_nonempty by exact Hq.
  now rewrite length_take, Array_sort_length.
Qed.

Lemma result_length_exact_witness :
  "media" <> "" /\
  length (getFilteredIcons prefixSearch mediaIcons "media") =
  Nat.min 20
    (length (List.filter (fun i => aboveThreshold (scoreIcon prefixSearch "media" i))
               mediaIcons)).
Proof.
  assert (Hq : "media" <> "") by discriminate.
  split; [exact Hq |].
  exact (result_length_exact prefixSearch mediaIcons "media" Hq).
Defined.


(** X4: when the names of the input icons are pairwise distinct, so are
    the [key]s of the rendered items, and each is the name of an input
    icon. *)
Theorem itemKeys_unique
    (fuzzySearch : string -> string -> Q) (icons : list Icon) (st : State) :
  NoDup (map name icons) ->
  NoDup (itemKeys fuzzySearch icons st) /\
  (forall k, In k (itemKeys fuzzySearch icons st) -> In k (map name icons)).
Proof.
  intros Hnd.
  assert (Hsub : itemKeys fuzzySearch icons st ⊆+ map name icons).
  { unfold itemKeys, filteredIcons.
    apply (fmap_submseteq name), getFilteredIcons_submseteq. }
  split; [now apply (submseteq_NoDup _ _ Hsub) |].
  intros k Hk. apply list_elem_of_In. eapply elem_of_submseteq; [| exact Hsub].
  now apply list_elem_of_In.
Qed.

Lemma itemKeys_unique_witness :
  NoDup (map name mediaIcons) /\
  NoDup (itemKeys prefixSearch mediaIcons (setQuery "media" initialState)).
Proof.
  assert (Hnd : NoDup (map name mediaIcons))
    by (apply (bool_decide_eq_true_1 _); vm_compute; reflexivity).
  split; [exact Hnd |].
  exact (proj1 (itemKeys_unique prefixSearch mediaIcons (setQuery "media" initialState) Hnd)).
Defined.



(** ** The open state and the handlers *)

Lemma setIsOpen_query (p : Props) (value : bool) (st : State) :
  query (setIsOpen p value st).1 = query st.
Proof. unfold setIsOpen. now destruct (externalOnOpenChange p). Qed.

Lemma handleAll_cons (p : Props) (ev : Event) (evs : list Event) (st : State) :
  handleAll p (ev :: evs) st =
  ((handleAll p evs (handle p ev st).1).1,
   ((handle p ev st).2 ++ (handleAll p evs (handle p ev st).1).2)%list).
Proof.
  simpl. destruct (handle p ev st) as [st1 effects1]. simpl.
  now destruct (handleAll p evs st1) as [st2 effects2].
Qed.

Lemma handleAll_app (p : Props) (evs1 evs2 : list Event) (st : State) :
  handleAll p (evs1 ++ evs2)%list st =
  ((handleAll p evs2 (handleAll p evs1 st).1).1,
   ((handleAll p evs1 st).2 ++ (handleAll p evs2 (handleAll p evs1 st).1).2)%list).
Proof.
  revert st. induction evs1 as [| ev evs1 IH]; intros st.
  - simpl. now destruct (handleAll p evs2 st).
  - change ((ev :: evs1) ++ evs2)%list with (ev :: (evs1 ++ evs2))%list.
    rewrite !handleAll_cons, IH. simpl. now rewrite app_assoc.
Qed.

(** X7: without [open] and [onOpenChange], a press of the shortcut flips
    [isOpen], and two presses in a row leave the component in the state it
    was in, each press calling [preventDefault] and nothing else. *)
Theorem uncontrolled_shortcut_toggles
    (p : Props) (e1 e2 : KeyboardEvent) (tag1 tag2 : option string) (st : State) :
  externalOpen p = None ->
  externalOnOpenChange p = false ->
  isShortcut e1 tag1 = true ->
  isShortcut e2 tag2 = true ->
  isOpen p (handleKeyDown p e1 tag1 st).1 = negb (isOpen p st) /\
  handleAll p [KeyDown e1 tag1; KeyDown e2 tag2] st = (st, [PreventDefault; PreventDefault]).
Proof.
  intros Hopen Hcb H1 H2.
  unfold handleAll, handle, handleKeyDown, setIsOpen, isOpen.
  rewrite Hopen, Hcb, H1, H2. simpl. split; [reflexivity |].
  destruct st as [o q]. simpl. now rewrite negb_involutive.
Qed.

Lemma uncontrolled_shortcut_toggles_witness :
  externalOpen uncontrolled = None /\
  externalOnOpenChange uncontrolled = false /\
  isShortcut ctrlK (Some "INPUT") = true /\
  isShortcut slash None = true /\
  handleAll uncontrolled [KeyDown ctrlK (Some "INPUT"); KeyDown slash None] initialState =
    (initialState, [PreventDefault; PreventDefault]).
Proof.
  split; [reflexivity |]. split; [reflexivity |].
  split; [reflexivity |]. split; [reflexivity |].
  exact (proj2 (uncontrolled_shortcut_toggles uncontrolled ctrlK slash (Some "INPUT") None
                  initialState eq_refl eq_refl eq_refl eq_refl)).
Defined.

Lemma tagNameIsNot_true_iff (activeTag : option string) (tag : string) :
  tagNameIsNot activeTag tag = true <-> activeTag <> Some tag.
Proof.
  unfold tagNameIsNot. destruct activeTag as [t |]; [| split; [discriminate | reflexivity]].
  rewrite negb_true_iff, String.eqb_neq. split; congruence.
Qed.

Lemma isShortcut_true_iff (e : KeyboardEvent) (activeTag : option string) :
  isShortcut e activeTag = true <->
  (key e = "k" /\ (metaKey e = true \/ ctrlKey e = true)) \/
  (key e = "/" /\ activeTag <> Some "INPUT" /\ activeTag <> Some "TEXTAREA").
Proof.
  unfold isShortcut.
  rewrite orb_true_iff, !andb_true_iff, orb_true_iff, !String.eqb_eq,
    !tagNameIsNot_true_iff.
  tauto.
Qed.

(** X8: a key press is left alone, with the state as it was, no call of
    [preventDefault] and no report to the parent, exactly when it is
    neither [k] with the meta or control key held nor [/] pressed while
    the focus is outside an [INPUT] and a [TEXTAREA]. *)
Theorem handleKeyDown_ignores
    (p : Props) (e : KeyboardEvent) (activeTag : option string) (st : State) :
  handleKeyDown p e activeTag st = (st, []) <->
  ~ ((key e = "k" /\ (metaKey e = true \/ ctrlKey e = true)) \/
     (key e = "/" /\ activeTag <> Some "INPUT" /\ activeTag <> Some "TEXTAREA")).
Proof.
  rewrite <- isShortcut_true_iff. unfold handleKeyDown.
  destruct (isShortcut e activeTag).
  - destruct (setIsOpen p (negb (isOpen p st)) st) as [st' effects].
    split; [discriminate | intros H; now contradiction H].
  - split; [discriminate | reflexivity].
Qed.

(** X9: over any sequence of events the component navigates once per
    selection and never otherwise, to [/icons/] followed by the selected
    name, in the order of the selections; and it calls [preventDefault]
    once per press of the shortcut and never otherwise. *)
Theorem navigation_and_preventDefault
    (p : Props) (evs : list Event) (st : State) :
  routerPushes (handleAll p evs st).2 =
    map (fun n => "/icons/" ++ n) (selections evs) /\
  preventDefaults (handleAll p evs st).2 = shortcutPresses evs.
Proof.
  unfold routerPushes, preventDefaults, shortcutPresses, selections.
  revert st. induction evs as [| ev evs IH]; intros st; [now split |].
  rewrite handleAll_cons. cbn [snd].
  rewrite flat_map_app, List.filter_app, length_app.
  destruct (IH (handle p ev st).1) as [-> ->].
  destruct ev as [e activeTag | value | value | n]; simpl.
  - unfold handleKeyDown, setIsOpen.
    destruct (isShortcut e activeTag), (externalOnOpenChange p); simpl; now split.
  - unfold setIsOpen. destruct (externalOnOpenChange p); simpl; now split.
  - now split.
  - unfold handleSelect, setIsOpen. destruct (externalOnOpenChange p); simpl; now split.
Qed.

Lemma handleAll_query (p : Props) (evs : list Event) (st : State) :
  query (handleAll p evs st).1 = lastValue evs (query st).
Proof.
  unfold lastValue. revert st. induction evs as [| ev evs IH]; intros st; [reflexivity |].
  rewrite handleAll_cons. cbn [fst fold_left]. rewrite IH. f_equal.
  destruct ev as [e activeTag | value | value | n]; simpl.
  - unfold handleKeyDown. destruct (isShortcut e activeTag); [| reflexivity].
    pose proof (setIsOpen_query p (negb (isOpen p st)) st) as H.
    now destruct (setIsOpen p (negb (isOpen p st)) st).
  - apply setIsOpen_query.
  - reflexivity.
  - unfold handleSelect. pose proof (setIsOpen_query p false st) as H.
    now destruct (setIsOpen p false st).
Qed.

(** X10: after any sequence of events the query is the last value typed,
    or the query before when nothing was typed, and the icons shown are
    those of that query: opening, closing and selecting neither clear nor
    change the search. *)
Theorem query_survives_open_close
    (fuzzySearch : string -> string -> Q) (icons : list Icon)
    (p : Props) (evs : list Event) (st : State) :
  query (handleAll p evs st).1 = lastValue evs (query st) /\
  filteredIcons fuzzySearch icons (handleAll p evs st).1 =
    getFilteredIcons fuzzySearch icons (lastValue evs (query st)) /\
  ((forall value, ~ In (ValueChange value) evs) ->
   filteredIcons fuzzySearch icons (handleAll p evs st).1 =
     filteredIcons fuzzySearch icons st).
Proof.
  unfold filteredIcons. rewrite handleAll_query.
  split; [reflexivity |]. split; [reflexivity |].
  intros Hno. f_equal. unfold lastValue.
  generalize (query st). clear st.
  induction evs as [| ev evs IH]; intros q; [reflexivity |].
  simpl. destruct ev as [e activeTag | value | value | n];
    try (apply (IH (fun v H => Hno v (or_intror H)) q)).
  exfalso. apply (Hno value). now left.
Qed.

(** X11: without [open] and [onOpenChange], whatever happened before, a
    selection leaves the menu closed; and for all props the navigation is
    the last thing a selection does. *)
Theorem select_closes_then_navigates
    (p : Props) (evs : list Event) (name : string) (st : State) :
  last (handleAll p (evs ++ [Select name])%list st).2 =
    Some (RouterPush ("/icons/" ++ name)) /\
  (externalOpen p = None -> externalOnOpenChange p = false ->
   isOpen p (handleAll p (evs ++ [Select name])%list st).1 = false).
Proof.
  rewrite handleAll_app. cbn [fst snd].
  set (st1 := (handleAll p evs st).1). set (effects1 := (handleAll p evs st).2).
  simpl. unfold handleSelect, setIsOpen, isOpen.
  destruct (externalOnOpenChange p); simpl.
  - split; [| discriminate].
    change [CallOnOpenChange false; RouterPush ("/icons/" ++ name)]
      with ([CallOnOpenChange false] ++ [RouterPush ("/icons/" ++ name)])%list.
    now rewrite app_assoc, last_snoc.
  - split; [now rewrite last_snoc |].
    now intros -> _.
Qed.

(** ** The rendered items *)

Lemma prefix_true_iff (sub s : string) :
  String.prefix sub s = true <-> exists post, s = sub ++ post.
Proof.
  revert s. induction sub as [| a sub IH]; intros s.
  - split; [intros _; now exists s | now destruct s].
  - destruct s as [| b s]; simpl;
      [split; [discriminate | intros [post H]; discriminate H] |].
    destruct (ascii_dec a b) as [-> | Hne].
    + rewrite IH. split; intros [post H]; exists post; [now rewrite H | now injection H].
    + split; [discriminate | intros [post H]; injection H as H1 _; congruence].
Qed.

(** [includes] is the test for a substring. *)
Lemma includes_true_iff (s sub : string) :
  includes s sub = true <-> exists pre post, s = pre ++ sub ++ post.
Proof.
  induction s as [| c s IH].
  - change (includes "" sub) with (String.prefix sub "" || false).
    rewrite orb_true_iff, prefix_true_iff. split.
    + intros [[post H] | H]; [now exists "", post | discriminate].
    + intros ([| c pre] & post & H); [left; now exists post | discriminate H].
  - change (includes (String c s) sub)
      with (String.prefix sub (String c s) || includes s sub).
    rewrite orb_true_iff, prefix_true_iff, IH. split.
    + intros [[post H] | (pre & post & H)].
      * now exists "", post.
      * exists (String c pre), post. simpl. now rewrite H.
    + intros ([| c' pre] & post & H).
      * left. now exists post.
      * right. injection H as _ H. now exists pre, post.
Qed.

Lemma includes_false_iff (s sub : string) :
  includes s sub = false <-> ~ exists pre post, s = pre ++ sub ++ post.
Proof.
  rewrite <- includes_true_iff. destruct (includes s sub); split; congruence.
Qed.

(** [find] returns the first element that passes the test. *)
Lemma find_Some_first {A : Type} (f : A -> bool) (l : list A) (a : A) :
  List.find f l = Some a <->
  exists before after,
    l = (before ++ a :: after)%list /\ f a = true /\
    forall b, In b before -> f b = false.
Proof.
  induction l as [| x l IH]; simpl.
  - split; [discriminate | intros ([| ? ?] & after & H & _); discriminate H].
  - destruct (f x) eqn:Hx.
    + split.
      * intros [= <-]. exists [], l. now split.
      * intros ([| y before] & after & H & Ha & Hb).
        -- now injection H as <- _.
        -- injection H as <- _. rewrite (Hb x (or_introl eq_refl)) in Hx. discriminate.
    + rewrite IH. split.
      * intros (before & after & -> & Ha & Hb). exists (x :: before), after.
        split; [reflexivity |]. split; [exact Ha |].
        intros b [<- | Hin]; [exact Hx | now apply Hb].
      * intros ([| y before] & after & H & Ha & Hb).
        -- injection H as -> _. congruence.
        -- injection H as <- ->. exists before, after.
           split; [reflexivity |]. split; [exact Ha |].
           intros b Hin. apply Hb. now right.
Qed.

(** X12: the alias shown for an item is, for a non-empty query, the first
    alias whose lower-cased text contains the lower-cased query as a
    substring; [find] returns nothing exactly when there are aliases and
    none contains it, and the value is [null] exactly when the query is
    empty or the icon has no alias. *)
Theorem matchedAlias_first_match
    (toLowerCase : string -> string) (query : string) (d : IconData) :
  (forall alias,
     matchedAlias toLowerCase query d = AliasFound alias <->
     query <> "" /\
     exists before after,
       aliases d = (before ++ alias :: after)%list /\
       (exists pre post, toLowerCase alias = pre ++ toLowerCase query ++ post) /\
       (forall b, In b before ->
          ~ exists pre post, toLowerCase b = pre ++ toLowerCase query ++ post)) /\
  (matchedAlias toLowerCase query d = AliasUndefined <->
     query <> "" /\ aliases d <> [] /\
     forall b, In b (aliases d) ->
       ~ exists pre post, toLowerCase b = pre ++ toLowerCase query ++ post) /\
  (matchedAlias toLowerCase query d = AliasNull <-> query = "" \/ aliases d = []).
Proof.
  unfold matchedAlias.
  set (f := fun alias => includes (toLowerCase alias) (toLowerCase query)).
  destruct (String.eqb_spec query "") as [-> | Hq]; simpl.
  { split; [| split].
    - intros alias. split; [discriminate | intros [H _]; congruence].
    - split; [discriminate | intros [H _]; congruence].
    - split; [now left | reflexivity]. }
  destruct (aliases d) as [| a0 l] eqn:Hal; simpl.
  { split; [| split].
    - intros alias. split; [discriminate |].
      intros (_ & [| ? ?] & after & H & _); discriminate H.
    - split; [discriminate | intros (_ & H & _); congruence].
    - split; [now right | reflexivity]. }
  change (if f a0 then Some a0 else List.find f l) with (List.find f (a0 :: l)).
  destruct (List.find f (a0 :: l)) as [a |] eqn:Hfind.
  - split; [| split].
    + intros alias. split.
      * intros [= <-]. split; [exact Hq |].
        apply find_Some_first in Hfind as (before & after & Hl & Ha & Hb).
        exists before, after. split; [exact Hl |].
        split; [now apply includes_true_iff |].
        intros b Hin. apply includes_false_iff. now apply Hb.
      * intros (_ & before & after & Hl & Ha & Hb). f_equal.
        assert (List.find f (a0 :: l) = Some alias) as H; [| congruence].
        apply find_Some_first. exists before, after. split; [exact Hl |].
        split; [now apply includes_true_iff |].
        intros b Hin. apply includes_false_iff. now apply Hb.
    + split; [discriminate |]. intros (_ & _ & Hnone). exfalso.
      apply find_some in Hfind as [Hin Ha].
      apply (Hnone a Hin). now apply includes_true_iff.
    + split; [discriminate | intros [H | H]; congruence].
  - split; [| split].
    + intros alias. split; [discriminate |].
      intros (_ & before & after & Hl & Ha & _). exfalso.
      apply includes_true_iff in Ha.
      pose proof (find_none f (a0 :: l) Hfind alias) as Hn.
      rewrite Hl in Hn. unfold f in Hn. rewrite Hn in Ha; [discriminate |].
      apply in_or_app. right. now left.
    + split; [| reflexivity]. intros _. split; [exact Hq |]. split; [discriminate |].
      intros b Hin. apply includes_false_iff. now apply (find_none f (a0 :: l) Hfind).
    + split; [discriminate | intros [H | H]; congruence].
Qed.

Lemma truthy_true_iff (m : MatchedAlias) :
  truthy m = true <-> exists alias, m = AliasFound alias /\ alias <> "".
Proof.
  destruct m as [| | a]; simpl.
  - split; [discriminate | intros (? & H & _); discriminate H].
  - split; [discriminate | intros (? & H & _); discriminate H].
  - rewrite negb_true_iff, String.eqb_neq. split.
    + intros H. now exists a.
    + now intros (? & [= <-] & H).
Qed.

Lemma subtitles_cases (toLowerCase : string -> string) (query : string) (d : IconData) :
  (exists alias,
     matchedAlias toLowerCase query d = AliasFound alias /\ alias <> "" /\
     subtitles toLowerCase query d = [AliasLine alias]) \/
  (truthy (matchedAlias toLowerCase query d) = false /\
   subtitles toLowerCase query d =
     match categories d with
     | [] => []
     | first :: _ => [CategoryLine (categoryLabel first)]
     end).
Proof.
  unfold subtitles.
  destruct (truthy (matchedAlias toLowerCase query d)) eqn:Ht.
  - left. apply truthy_true_iff in Ht as (alias & Hm & Ha). exists alias.
    rewrite Hm. split; [reflexivity |]. split; [exact Ha | reflexivity].
  - right. split; [reflexivity |].
    destruct (matchedAlias toLowerCase query d); reflexivity.
Qed.

(** X13: an item shows at most one line under its title: the alias line
    when an alias was found and is not the empty string, and otherwise, if
    the icon has a category, the label of its first category.  For the
    empty query no alias line is shown. *)
Theorem subtitles_at_most_one
    (toLowerCase : string -> string) (query : string) (d : IconData) :
  (length (subtitles toLowerCase query d) <= 1)%nat /\
  (forall alias,
     In (AliasLine alias) (subtitles toLowerCase query d) <->
     matchedAlias toLowerCase query d = AliasFound alias /\ alias <> "") /\
  (forall label,
     In (CategoryLine label) (subtitles toLowerCase query d) <->
     truthy (matchedAlias toLowerCase query d) = false /\
     exists first rest, categories d = first :: rest /\ label = categoryLabel first) /\
  (query = "" -> forall alias, ~ In (AliasLine alias) (subtitles toLowerCase query d)).
Proof.
  destruct (subtitles_cases toLowerCase query d) as [(a & Hm & Ha & ->) | [Ht ->]].
  - split; [simpl; lia |]. split; [| split].
    + intros alias. split.
      * intros [[= <-] | []]. now split.
      * intros [H _]. left. congruence.
    + intros label. split.
      * intros [H | []]. discriminate H.
      * intros [H _]. rewrite Hm in H. simpl in H.
        apply String.eqb_neq in Ha. rewrite Ha in H. discriminate H.
    + intros ->. discriminate Hm.
  - assert (Hnone : forall alias,
              ~ In (AliasLine alias)
                  match categories d with
                  | [] => []
                  | first :: _ => [CategoryLine (categoryLabel first)]
                  end).
    { intros alias. destruct (categories d); simpl; [tauto |].
      intros [H | []]. discriminate H. }
    split; [destruct (categories d); simpl; lia |]. split; [| split].
    + intros alias. split; [intros H; now apply Hnone in H |].
      intros [Hm Ha]. exfalso.
      assert (truthy (matchedAlias toLowerCase query d) = true)
        by (apply truthy_true_iff; now exists alias).
      congruence.
    + intros label. destruct (categories d) as [| c cs]; simpl.
      * split; [intros [] | intros (_ & ? & ? & H & _); discriminate H].
      * split.
        -- intros [[= <-] | []]. split; [exact Ht | now exists c, cs].
        -- intros (_ & ? & ? & [= <- _] & ->). now left.
    + intros _. exact Hnone.
Qed.

(** ** Titles and category labels *)

Ltac each_ascii c := destruct c as [[] [] [] [] [] [] [] []].

Lemma wordCharToUpperCase_isWordChar (c : ascii) :
  isWordChar (wordCharToUpperCase c) = isWordChar c.
Proof. each_ascii c; reflexivity. Qed.

Lemma wordCharToUpperCase_idem (c : ascii) :
  wordCharToUpperCase (wordCharToUpperCase c) = wordCharToUpperCase c.
Proof. each_ascii c; reflexivity. Qed.

Lemma isWordChar_not_hyphen (c : ascii) : isWordChar c = true -> Ascii.eqb c "-" = false.
Proof. each_ascii c; try reflexivity; discriminate. Qed.

Lemma wordCharToUpperCase_not_hyphen (c : ascii) :
  Ascii.eqb (wordCharToUpperCase c) "-" = Ascii.eqb c "-".
Proof. each_ascii c; reflexivity. Qed.

Lemma capitalized_isWordChar (afterWord : bool) (c : ascii) :
  isWordChar (capitalized afterWord c) = isWordChar c.
Proof.
  unfold capitalized. destruct (isWordChar c && negb afterWord); [| reflexivity].
  apply wordCharToUpperCase_isWordChar.
Qed.

Lemma capitalized_hyphen (afterWord : bool) (c : ascii) :
  Ascii.eqb (capitalized afterWord c) "-" = Ascii.eqb c "-".
Proof.
  unfold capitalized. destruct (isWordChar c && negb afterWord); [| reflexivity].
  apply wordCharToUpperCase_not_hyphen.
Qed.

Lemma capitalizeFrom_length (afterWord : bool) (s : string) :
  String.length (capitalizeFrom afterWord s) = String.length s.
Proof.
  revert afterWord. induction s as [| c s IH]; intros afterWord; simpl; [reflexivity |].
  now rewrite IH.
Qed.

Lemma replaceHyphens_length (s : string) :
  String.length (replaceHyphens s) = String.length s.
Proof. induction s as [| c s IH]; simpl; [reflexivity | now rewrite IH]. Qed.

Lemma replaceHyphens_get (s : string) (n : nat) :
  String.get n (replaceHyphens s) <> Some "-"%char.
Proof.
  revert n. induction s as [| c s IH]; intros n; simpl; [discriminate |].
  destruct n as [| n]; [| apply IH].
  destruct (Ascii.eqb_spec c "-") as [-> | Hc]; [discriminate | congruence].
Qed.

Lemma capitalizeFrom_get (afterWord : bool) (s : string) (n : nat) :
  (forall m, String.get m s <> Some "-"%char) ->
  String.get n (capitalizeFrom afterWord s) <> Some "-"%char.
Proof.
  revert afterWord n. induction s as [| c s IH]; intros afterWord n Hs; simpl;
    [discriminate |].
  destruct n as [| n].
  - intros [= H].
    assert (Ascii.eqb (capitalized afterWord c) "-" = true) as E
      by (rewrite H; apply Ascii.eqb_refl).
    rewrite capitalized_hyphen in E. apply Ascii.eqb_eq in E.
    apply (Hs 0%nat). simpl. now rewrite E.
  - apply IH. intros m. apply (Hs (S m)).
Qed.

(** X14: the title of an item and the label of a category have the
    length of the name and the category they are made from, and neither
    contains a hyphen. *)
Theorem labels_keep_length_without_hyphen (s : string) :
  String.length (replaceHyphens s) = String.length s /\
  String.length (categoryLabel s) = String.length s /\
  (forall n, String.get n (replaceHyphens s) <> Some "-"%char) /\
  (forall n, String.get n (categoryLabel s) <> Some "-"%char).
Proof.
  unfold categoryLabel, capitalizeWords.
  split; [apply replaceHyphens_length |].
  split; [now rewrite capitalizeFrom_length, replaceHyphens_length |].
  split; [apply replaceHyphens_get |].
  intros n. apply capitalizeFrom_get. apply replaceHyphens_get.
Qed.

Lemma replaceHyphens_app (a b : string) :
  replaceHyphens (a ++ b) = replaceHyphens a ++ replaceHyphens b.
Proof. induction a as [| c a IH]; simpl; [reflexivity | now rewrite IH]. Qed.

Lemma capitalizeFrom_space_app (afterWord : bool) (a b : string) :
  capitalizeFrom afterWord (a ++ " " ++ b) =
  capitalizeFrom afterWord a ++ " " ++ capitalizeFrom false b.
Proof.
  revert afterWord. induction a as [| c a IH]; intros afterWord; simpl.
  - reflexivity.
  - now rewrite IH.
Qed.

(** X15: a hyphen separates the words of a category: the label of
    [a-b] is the label of [a], a space, and the label of [b]. *)
Theorem categoryLabel_hyphen (a b : string) :
  categoryLabel (a ++ "-" ++ b) = categoryLabel a ++ " " ++ categoryLabel b.
Proof.
  unfold categoryLabel, capitalizeWords.
  rewrite !replaceHyphens_app. change (replaceHyphens "-") with " ".
  apply capitalizeFrom_space_app.
Qed.

Lemma capitalized_idem (afterWord : bool) (c : ascii) :
  capitalized afterWord (capitalized afterWord c) = capitalized afterWord c.
Proof.
  unfold capitalized at 2 3. destruct (isWordChar c && negb afterWord) eqn:E.
  - unfold capitalized. rewrite wordCharToUpperCase_isWordChar, E.
    apply wordCharToUpperCase_idem.
  - unfold capitalized. now rewrite E.
Qed.

Lemma capitalizeFrom_idem (afterWord : bool) (s : string) :
  capitalizeFrom afterWord (capitalizeFrom afterWord s) = capitalizeFrom afterWord s.
Proof.
  revert afterWord. induction s as [| c s IH]; intros afterWord; [reflexivity |].
  cbn [capitalizeFrom]. now rewrite capitalized_isWordChar, IH, capitalized_idem.
Qed.

Lemma replaceHyphens_capitalizeFrom (afterWord : bool) (s : string) :
  replaceHyphens (capitalizeFrom afterWord (replaceHyphens s)) =
  capitalizeFrom afterWord (replaceHyphens s).
Proof.
  revert afterWord. induction s as [| c s IH]; intros afterWord; [reflexivity |].
  cbn [replaceHyphens capitalizeFrom]. rewrite IH. f_equal.
  rewrite capitalized_hyphen.
  destruct (Ascii.eqb c "-") eqn:E; [reflexivity | now rewrite E].
Qed.

(** X16: making the label of a label changes nothing. *)
Theorem categoryLabel_idempotent (s : string) :
  categoryLabel (categoryLabel s) = categoryLabel s.
Proof.
  unfold categoryLabel, capitalizeWords.
  rewrite replaceHyphens_capitalizeFrom. apply capitalizeFrom_idem.
Qed.

Lemma replaceHyphens_word (w : string) :
  allWordChars w = true -> replaceHyphens w = w.
Proof.
  induction w as [| c w IH]; simpl; [reflexivity |].
  rewrite andb_true_iff. intros [Hc Hw].
  now rewrite (isWordChar_not_hyphen c Hc), IH.
Qed.

Lemma capitalizeFrom_word (w : string) :
  allWordChars w = true -> capitalizeFrom true w = w.
Proof.
  induction w as [| c w IH]; simpl; [reflexivity |].
  rewrite andb_true_iff. intros [Hc Hw].
  unfold capitalized. now rewrite Hc, andb_false_r, IH.
Qed.

(** X17: in a category made of letters, digits and underscores only, the
    first character is put in upper case and the rest is left as it is. *)
Theorem categoryLabel_word (c : ascii) (w : string) :
  allWordChars (String c w) = true ->
  categoryLabel (String c w) = String (wordCharToUpperCase c) w.
Proof.
  intros Hall. unfold categoryLabel, capitalizeWords.
  rewrite (replaceHyphens_word _ Hall).
  simpl in Hall. apply andb_true_iff in Hall as [Hc Hw].
  cbn [capitalizeFrom]. unfold capitalized. now rewrite Hc, (capitalizeFrom_word w Hw).
Qed.

Lemma categoryLabel_word_witness :
  allWordChars "media" = true /\
  categoryLabel "media" = "Media".
Proof.
  assert (Hall : allWordChars "media" = true) by reflexivity.
  split; [exact Hall |].
  exact (categoryLabel_word "m"%char "edia" Hall).
Defined.

(** * The binary64 numbers *)

(** ** The specification of the format *)

Section SpecFloatFacts.

Local Open Scope Z_scope.

Lemma SFcompare_key (f1 f2 : spec_float) :
  f1 <> S754_nan -> f2 <> S754_nan ->
  (SFcompare f1 f2 = Some Lt /\ lexLt (sfKey f1) (sfKey f2)) \/
  (SFcompare f1 f2 = Some Eq /\ sfKey f1 = sfKey f2) \/
  (SFcompare f1 f2 = Some Gt /\ lexLt (sfKey f2) (sfKey f1)).
Proof.
  intros H1 H2. unfold lexLt.
  destruct f1 as [s1 | s1 | | s1 m1 e1], f2 as [s2 | s2 | | s2 m2 e2];
    try congruence; try destruct s1; try destruct s2; simpl;
    try (left; split; [reflexivity | lia]);
    try (right; left; split; reflexivity);
    try (right; right; split; [reflexivity | lia]).
  - rewrite Pos.compare_cont_spec. simpl.
    destruct (Z.compare_spec e1 e2); destruct (Pos.compare_spec m1 m2); simpl; subst;
      try (left; split; [reflexivity | lia]);
      try (right; left; split; reflexivity);
      try (right; right; split; [reflexivity | lia]).
  - rewrite Pos.compare_cont_spec. simpl.
    destruct (Z.compare_spec e1 e2); destruct (Pos.compare_spec m1 m2); simpl; subst;
      try (left; split; [reflexivity | lia]);
      try (right; left; split; reflexivity);
      try (right; right; split; [reflexivity | lia]).
Qed.

Lemma digits2_pos_size (p : positive) : digits2_pos p = Pos.size p.
Proof. induction p as [p IH | p IH |]; simpl; congruence. Qed.

Lemma digits2_pos_bounds (p : positive) :
  2 ^ (Zpos (digits2_pos p) - 1) <= Zpos p < 2 ^ Zpos (digits2_pos p).
Proof.
  rewrite digits2_pos_size.
  pose proof (Pos.size_gt p) as Hgt. pose proof (Pos.size_le p) as Hle.
  apply Pos2Z.pos_lt_pos in Hgt. apply Pos2Z.pos_le_pos in Hle.
  rewrite Pos2Z.inj_pow in Hgt, Hle.
  split; [| exact Hgt].
  assert (E : 2 ^ Zpos (Pos.size p) = 2 * 2 ^ (Zpos (Pos.size p) - 1)).
  { rewrite <- Z.pow_succ_r by lia. f_equal. lia. }
  rewrite E in Hle. lia.
Qed.

Lemma iter_pos_nat {A : Type} (f : A -> A) (p : positive) (x : A) :
  SpecFloat.iter_pos f p x = Nat.iter (Pos.to_nat p) f x.
Proof.
  revert x. induction p as [p IH | p IH |]; intros x; cbn [SpecFloat.iter_pos].
  - rewrite !IH, Pos2Nat.inj_xI.
    replace (S (2 * Pos.to_nat p)) with (Pos.to_nat p + (Pos.to_nat p + 1))%nat by lia.
    now rewrite !Nat.iter_add.
  - rewrite !IH, Pos2Nat.inj_xO.
    replace (2 * Pos.to_nat p)%nat with (Pos.to_nat p + Pos.to_nat p)%nat by lia.
    now rewrite Nat.iter_add.
  - reflexivity.
Qed.

Lemma shr_1_m (mrs : shr_record) :
  0 <= shr_m mrs -> shr_m (shr_1 mrs) = shr_m mrs / 2.
Proof.
  destruct mrs as [m r s]. simpl. intros Hm. rewrite <- Z.div2_div.
  destruct m as [| [p | p |] | p]; try reflexivity. lia.
Qed.

Lemma iter_shr_1_m (n : nat) (mrs : shr_record) :
  0 <= shr_m mrs -> shr_m (Nat.iter n shr_1 mrs) = shr_m mrs / 2 ^ Z.of_nat n.
Proof.
  intros Hm. induction n as [| n IH].
  - simpl. now rewrite Z.div_1_r.
  - rewrite Nat2Z.inj_succ, Z.pow_succ_r by lia. simpl.
    rewrite shr_1_m; rewrite IH.
    + rewrite Z.div_div by lia. f_equal. lia.
    + apply Z.div_pos; [exact Hm | apply Z.pow_pos_nonneg; lia].
Qed.

Lemma shr_m_shr (mrs : shr_record) (e n : Z) :
  0 <= shr_m mrs ->
  shr_m (shr mrs e n).1 = shr_m mrs / 2 ^ Z.max 0 n /\
  (shr mrs e n).2 = e + Z.max 0 n.
Proof.
  intros Hm. destruct n as [| p | p]; simpl.
  - rewrite Z.div_1_r. split; [reflexivity | lia].
  - rewrite iter_pos_nat, iter_shr_1_m by exact Hm.
    rewrite positive_nat_Z. split; reflexivity.
  - rewrite Z.div_1_r. split; [reflexivity | lia].
Qed.

Lemma shr_m_of_loc (m : Z) (l : location) : shr_m (shr_record_of_loc m l) = m.
Proof. destruct l as [| []]; reflexivity. Qed.

(** Shifting to the exponent of the format keeps a mantissa non-negative,
    and positive when the exponent is not below the smallest one. *)
Lemma shr_fexp_m (m e : Z) (l : location) :
  0 <= m ->
  0 <= shr_m (shr_fexp prec emax m e l).1 /\
  (0 < m -> emin64 <= e ->
   0 < shr_m (shr_fexp prec emax m e l).1 /\ emin64 <= (shr_fexp prec emax m e l).2).
Proof.
  intros Hm. unfold shr_fexp.
  set (n := fexp prec emax (Zdigits2 m + e) - e).
  destruct (shr_m_shr (shr_record_of_loc m l) e n) as [Hs He];
    [now rewrite shr_m_of_loc |].
  rewrite Hs, He, shr_m_of_loc. split.
  - apply Z.div_pos; [exact Hm | apply Z.pow_pos_nonneg; lia].
  - intros Hpos Hemin. split; [| lia].
    destruct m as [| p | p]; try lia.
    pose proof (digits2_pos_bounds p) as [Hlo _].
    assert (Hn : Z.max 0 n <= Zpos (digits2_pos p) - 1).
    { unfold n, fexp, SpecFloat.emin, prec, emax in *. simpl Zdigits2. lia. }
    apply Z.div_str_pos. split; [apply Z.pow_pos_nonneg; lia |].
    etransitivity; [| exact Hlo]. apply Z.pow_le_mono_r; lia.
Qed.

Lemma round_nearest_even_bounds (m : Z) (l : location) :
  m <= round_nearest_even m l <= m + 1.
Proof. destruct l as [| []]; simpl; try destruct (Z.even m); lia. Qed.

(** Rounding never produces NaN, and it produces a number of the sign it
    is given, zero excluded, from a positive mantissa at an exponent of
    the format. *)
Lemma binary_round_aux_cases (s : bool) (m e : Z) (l : location) :
  0 <= m ->
  (binary_round_aux prec emax s m e l = S754_zero s \/
   (exists m' e', binary_round_aux prec emax s m e l = S754_finite s m' e') \/
   binary_round_aux prec emax s m e l = S754_infinity s) /\
  (0 < m -> emin64 <= e -> binary_round_aux prec emax s m e l <> S754_zero s).
Proof.
  intros Hm. unfold binary_round_aux.
  destruct (shr_fexp_m m e l Hm) as [H1 H1'].
  destruct (shr_fexp prec emax m e l) as [mrs' e'] eqn:E1. simpl in H1, H1'.
  set (m1 := round_nearest_even (shr_m mrs') (loc_of_shr_record mrs')).
  pose proof (round_nearest_even_bounds (shr_m mrs') (loc_of_shr_record mrs')) as Hr.
  fold m1 in Hr.
  assert (Hm1 : 0 <= m1) by lia.
  destruct (shr_fexp_m m1 e' loc_Exact Hm1) as [H2 H2'].
  destruct (shr_fexp prec emax m1 e' loc_Exact) as [mrs'' e''] eqn:E2. simpl in H2, H2'.
  split.
  - destruct (shr_m mrs'') as [| p | p]; [now left | | lia].
    destruct (e'' <=? emax - prec); [right; left; now eexists _, _ | now right; right].
  - intros Hpos Hemin. destruct (H1' Hpos Hemin) as [Hp He].
    destruct H2' as [Hp2 _]; [lia | exact He |].
    destruct (shr_m mrs'') as [| p | p]; [lia | | lia].
    destruct (e'' <=? emax - prec); discriminate.
Qed.

Lemma Pos_iter_xO (m d : positive) : Zpos (Pos.iter xO m d) = Zpos m * 2 ^ Zpos d.
Proof.
  induction d as [| d IH] using Pos.peano_ind.
  - simpl. lia.
  - rewrite Pos.iter_succ, Pos2Z.inj_xO, IH, Pos2Z.inj_succ, Z.pow_succ_r by lia. lia.
Qed.

Lemma shl_align_spec (m : positive) (e e' : Z) :
  (shl_align m e e').2 = Z.min e e' /\
  Zpos (shl_align m e e').1 = Zpos m * 2 ^ (e - Z.min e e').
Proof.
  unfold shl_align. destruct (e' - e) as [| d | d] eqn:E; simpl.
  - replace (Z.min e e') with e by lia. rewrite Z.sub_diag. simpl. lia.
  - replace (Z.min e e') with e by lia. rewrite Z.sub_diag. simpl. lia.
  - replace (Z.min e e') with e' by lia. rewrite Pos_iter_xO.
    replace (e - e') with (Zpos d) by lia. split; reflexivity.
Qed.

Lemma binary_round_cases (s : bool) (m : positive) (e : Z) :
  emin64 <= e ->
  (exists m' e', binary_round prec emax s m e = S754_finite s m' e') \/
  binary_round prec emax s m e = S754_infinity s.
Proof.
  intros He. unfold binary_round.
  destruct (shl_align_spec m e (fexp prec emax (Zpos (digits2_pos m) + e))) as [H2 _].
  destruct (shl_align m e (fexp prec emax (Zpos (digits2_pos m) + e))) as [mz ez].
  simpl in H2.
  assert (Hez : emin64 <= ez) by (unfold fexp in H2; lia).
  destruct (binary_round_aux_cases s (Zpos mz) ez loc_Exact) as [[H | [H | H]] Hnz];
    [lia | | now left | now right].
  exfalso. apply Hnz; [lia | exact Hez | exact H].
Qed.

Lemma bounded_spec (m : positive) (e : Z) :
  bounded prec emax m e = true ->
  emin64 <= e /\ Zpos m < 2 ^ 53 /\ (emin64 < e -> 2 ^ 52 <= Zpos m).
Proof.
  unfold bounded, canonical_mantissa, fexp. rewrite andb_true_iff, Z.eqb_eq.
  intros [Hc _]. pose proof (digits2_pos_bounds m) as [Hlo Hhi].
  set (d := Zpos (digits2_pos m)) in *.
  unfold SpecFloat.emin, prec, emax in *.
  assert (Hd : d <= 53) by lia.
  split; [lia |]. split.
  - eapply Z.lt_le_trans; [exact Hhi |]. apply Z.pow_le_mono_r; lia.
  - intros He. assert (d = 53) as Hd53 by lia.
    rewrite Hd53 in Hlo. exact Hlo.
Qed.

(** The sign of a difference of two numbers above zero tells which is
    the larger. *)
Lemma SFsub_ltb_zero (x y : spec_float) :
  valid_binary x = true -> valid_binary y = true ->
  positiveSF x -> positiveSF y ->
  SFltb (SF64sub x y) (S754_zero false) = SFltb x y.
Proof.
  intros Vx Vy [-> | (mx & ex & ->)] [-> | (my & ey & ->)]; try reflexivity.
  simpl in Vx, Vy.
  destruct (bounded_spec mx ex Vx) as (Hex & Hmx & Hnx).
  destruct (bounded_spec my ey Vy) as (Hey & Hmy & Hny).
  unfold SF64sub, SFsub, cond_Zopp.
  set (ez := Z.min ex ey).
  destruct (shl_align_spec mx ex ez) as [_ Ha].
  destruct (shl_align_spec my ey ez) as [_ Hb].
  replace (Z.min ex ez) with ez in Ha by lia.
  replace (Z.min ey ez) with ez in Hb by lia.
  set (a := Zpos (shl_align mx ex ez).1) in *.
  set (b := Zpos (shl_align my ey ez).1) in *.
  assert (E53 : 2 ^ 53 = 2 * 2 ^ 52) by reflexivity.
  assert (Hsign : (a - b < 0 <-> SFltb (S754_finite false mx ex) (S754_finite false my ey) = true)
                  /\ (a - b = 0 -> SFltb (S754_finite false mx ex) (S754_finite false my ey) = false)).
  { unfold SFltb, SFcompare. rewrite Pos.compare_cont_spec. simpl.
    destruct (Z.compare_spec ex ey) as [E | E | E].
    - subst ey. replace (ex - ez) with 0 in Ha, Hb by lia. rewrite Z.mul_1_r in Ha, Hb.
      destruct (Pos.compare_spec mx my) as [E | E | E]; simpl;
        (split; [split; [lia || discriminate | lia || discriminate] | lia || discriminate]).
    - replace (ex - ez) with 0 in Ha by lia. rewrite Z.mul_1_r in Ha.
      assert (2 <= 2 ^ (ey - ez)).
      { change 2 with (2 ^ 1) at 1. apply Z.pow_le_mono_r; lia. }
      assert (2 ^ 52 <= Zpos my) by (apply Hny; lia).
      assert (Zpos my * 2 <= b) by (rewrite Hb; apply Z.mul_le_mono_nonneg_l; lia).
      split; [split; [reflexivity | lia] | lia].
    - replace (ey - ez) with 0 in Hb by lia. rewrite Z.mul_1_r in Hb.
      assert (2 <= 2 ^ (ex - ez)).
      { change 2 with (2 ^ 1) at 1. apply Z.pow_le_mono_r; lia. }
      assert (2 ^ 52 <= Zpos mx) by (apply Hnx; lia).
      assert (Zpos mx * 2 <= a) by (rewrite Ha; apply Z.mul_le_mono_nonneg_l; lia).
      split; [split; [lia | discriminate] | lia]. }
  destruct Hsign as [Hneg Hzero].
  unfold binary_normalize.
  destruct (a - b) as [| p | p] eqn:D.
  - rewrite Hzero by reflexivity. reflexivity.
  - destruct (SFltb (S754_finite false mx ex) (S754_finite false my ey)) eqn:L.
    + assert (Zpos p < 0) by (apply Hneg; reflexivity). lia.
    + unfold binary_round.
      destruct (shl_align p ez _) as [mz e1].
      destruct (binary_round_aux_cases false (Zpos mz) e1 loc_Exact) as [[H | [(? & ? & H) | H]] _];
        [lia | | |]; rewrite H; reflexivity.
  - rewrite (proj1 Hneg) by lia.
    destruct (binary_round_cases true p ez) as [(? & ? & H) | H]; [lia | |];
      rewrite H; reflexivity.
Qed.

Lemma SFmul_not_nan (x c : spec_float) :
  x <> S754_nan -> (exists s m e, c = S754_finite s m e) -> SF64mul x c <> S754_nan.
Proof.
  intros Hx (sc & mc & ec & ->).
  destruct x as [s | s | | s m e]; try discriminate; [congruence |].
  unfold SF64mul, SFmul.
  destruct (binary_round_aux_cases (xorb s sc) (Zpos (m * mc)) (e + ec) loc_Exact)
    as [[H | [(? & ? & H) | H]] _]; [lia | | |]; rewrite H; discriminate.
Qed.

End SpecFloatFacts.

(** ** The primitive numbers *)

Section PrimFloatFacts.

Local Open Scope float_scope.

Lemma sfKey_nan (f : spec_float) : (sfKey f).1.1 = 3%Z <-> f = S754_nan.
Proof. destruct f as [s | [] | | [] m e]; simpl; split; congruence || lia. Qed.

Lemma SFcompare_refl (f : spec_float) : f <> S754_nan -> SFcompare f f = Some Eq.
Proof.
  intros Hf. destruct (SFcompare_key f f Hf Hf) as [[_ H] | [[H _] | [_ H]]];
    [unfold lexLt in H; lia | exact H | unfold lexLt in H; lia].
Qed.

Lemma is_nan_spec (x : float) : is_nan x = true <-> Prim2SF x = S754_nan.
Proof.
  unfold is_nan. rewrite FloatAxioms.eqb_spec, negb_true_iff. unfold SFeqb.
  destruct (Prim2SF x) as [s | s | | s m e] eqn:E.
  - rewrite SFcompare_refl by discriminate. split; discriminate.
  - rewrite SFcompare_refl by discriminate. split; discriminate.
  - split; reflexivity.
  - rewrite SFcompare_refl by discriminate. split; discriminate.
Qed.

Lemma is_nan_false_iff (x : float) : is_nan x = false <-> Prim2SF x <> S754_nan.
Proof. rewrite <- is_nan_spec. destruct (is_nan x); split; congruence. Qed.

Lemma compare_nan_l (f : spec_float) : SFcompare S754_nan f = None.
Proof. reflexivity. Qed.

Lemma compare_nan_r (f : spec_float) : SFcompare f S754_nan = None.
Proof. now destruct f. Qed.

Lemma ltb_iff (x y : float) :
  (x <? y) = true <->
  is_nan x = false /\ is_nan y = false /\ lexLt (fkey x) (fkey y).
Proof.
  rewrite FloatAxioms.ltb_spec, !is_nan_false_iff. unfold fkey, SFltb.
  destruct (Prim2SF x) as [sx | sx | | sx mx ex] eqn:Ex;
    try (rewrite compare_nan_l; split; [discriminate | intros (H & _); congruence]);
  destruct (Prim2SF y) as [sy | sy | | sy my ey] eqn:Ey;
    try (rewrite compare_nan_r; split; [discriminate | intros (_ & H & _); congruence]);
  match goal with
  | |- context [SFcompare ?a ?b] =>
      destruct (SFcompare_key a b) as [[H K] | [[H K] | [H K]]];
      try discriminate; rewrite H; unfold lexLt in *;
      (split; [intros; try discriminate; (split; [discriminate | split; [discriminate | lia]])
              | intros (_ & _ & L); try reflexivity; exfalso; try rewrite K in L; lia])
  end.
Qed.

Lemma eqb_iff (x y : float) :
  (x =? y) = true <->
  is_nan x = false /\ is_nan y = false /\ lexEq (fkey x) (fkey y).
Proof.
  rewrite FloatAxioms.eqb_spec, !is_nan_false_iff. unfold fkey, SFeqb.
  destruct (Prim2SF x) as [sx | sx | | sx mx ex] eqn:Ex;
    try (rewrite compare_nan_l; split; [discriminate | intros (H & _); congruence]);
  destruct (Prim2SF y) as [sy | sy | | sy my ey] eqn:Ey;
    try (rewrite compare_nan_r; split; [discriminate | intros (_ & H & _); congruence]);
  match goal with
  | |- context [SFcompare ?a ?b] =>
      destruct (SFcompare_key a b) as [[H K] | [[H K] | [H K]]];
      try discriminate; rewrite H; unfold lexLt, lexEq in *;
      (split; [intros; try discriminate;
               (split; [discriminate | split; [discriminate | rewrite K; lia]])
              | intros (_ & _ & L); try reflexivity; exfalso; lia])
  end.
Qed.

Lemma leb_iff (x y : float) :
  (x <=? y) = true <->
  is_nan x = false /\ is_nan y = false /\
  (lexLt (fkey x) (fkey y) \/ lexEq (fkey x) (fkey y)).
Proof.
  rewrite FloatAxioms.leb_spec, !is_nan_false_iff. unfold fkey, SFleb.
  destruct (Prim2SF x) as [sx | sx | | sx mx ex] eqn:Ex;
    try (rewrite compare_nan_l; split; [discriminate | intros (H & _); congruence]);
  destruct (Prim2SF y) as [sy | sy | | sy my ey] eqn:Ey;
    try (rewrite compare_nan_r; split; [discriminate | intros (_ & H & _); congruence]);
  match goal with
  | |- context [SFcompare ?a ?b] =>
      destruct (SFcompare_key a b) as [[H K] | [[H K] | [H K]]];
      try discriminate; rewrite H; unfold lexLt, lexEq in *;
      (split; [intros; try discriminate;
               (split; [discriminate | split; [discriminate | try rewrite K; lia]])
              | intros (_ & _ & L); try reflexivity; exfalso; lia])
  end.
Qed.

End PrimFloatFacts.

(** ** The order of the numbers *)

Ltac float_keys :=
  repeat match goal with
  | H : (_ <? _)%float = true |- _ => apply ltb_iff in H; destruct H as (? & ? & H)
  | H : (_ <=? _)%float = true |- _ => apply leb_iff in H; destruct H as (? & ? & H)
  | H : (_ =? _)%float = true |- _ => apply eqb_iff in H; destruct H as (? & ? & H)
  end;
  unfold lexLt, lexEq in *.

Ltac float_order :=
  float_keys;
  lazymatch goal with
  | |- (_ <? _)%float = true => apply ltb_iff; unfold lexLt, lexEq
  | |- (_ <=? _)%float = true => apply leb_iff; unfold lexLt, lexEq
  | |- (_ =? _)%float = true => apply eqb_iff; unfold lexLt, lexEq
  | |- _ = false =>
      apply not_true_iff_false; intros ?; float_keys
  | |- _ => idtac
  end;
  repeat split; try assumption; try lia.

Section PrimFloatOrder.

Local Open Scope float_scope.

Lemma ltb_is_number (x y : float) :
  (x <? y) = true -> is_nan x = false /\ is_nan y = false.
Proof. intros H. float_keys. now split. Qed.

Lemma leb_refl (x : float) : is_nan x = false -> (x <=? x) = true.
Proof. intros H. float_order. Qed.

Lemma eqb_refl (x : float) : is_nan x = false -> (x =? x) = true.
Proof. intros H. float_order. Qed.

Lemma eqb_sym (x y : float) : (x =? y) = true -> (y =? x) = true.
Proof. intros H. float_order. Qed.

Lemma eqb_trans (x y z : float) : (x =? y) = true -> (y =? z) = true -> (x =? z) = true.
Proof. intros H1 H2. float_order. Qed.

Lemma leb_trans (x y z : float) : (x <=? y) = true -> (y <=? z) = true -> (x <=? z) = true.
Proof. intros H1 H2. float_order. Qed.

Lemma ltb_leb (x y : float) : (x <? y) = true -> (x <=? y) = true.
Proof. intros H. float_order. Qed.

Lemma eqb_leb (x y : float) : (x =? y) = true -> (x <=? y) = true.
Proof. intros H. float_order. Qed.

Lemma leb_antisym (x y : float) : (x <=? y) = true -> (y <=? x) = true -> (x =? y) = true.
Proof. intros H1 H2. float_order. Qed.

Lemma ltb_leb_trans (x y z : float) : (x <? y) = true -> (y <=? z) = true -> (x <? z) = true.
Proof. intros H1 H2. float_order. Qed.

Lemma ltb_trans (x y z : float) : (x <? y) = true -> (y <? z) = true -> (x <? z) = true.
Proof. intros H1 H2. float_order. Qed.

Lemma leb_not_ltb (x y : float) : (x <=? y) = true -> (y <? x) = false.
Proof. intros H. float_order. Qed.

Lemma ltb_not_eqb (x y s : float) :
  (x <? y) = true -> (x =? s) = true -> (y =? s) = false.
Proof. intros H1 H2. float_order. Qed.

(** Two numbers are comparable: when [x < y] fails, [y <= x] holds. *)
Lemma not_ltb_leb (x y : float) :
  is_nan x = false -> is_nan y = false -> (x <? y) = false -> (y <=? x) = true.
Proof.
  intros Hx Hy H. apply leb_iff. split; [exact Hy |]. split; [exact Hx |].
  destruct (ltb_iff x y) as [_ K].
  assert (~ lexLt (fkey x) (fkey y)) as N.
  { intros L. rewrite K in H; [discriminate | now repeat split]. }
  unfold lexLt, lexEq in *. lia.
Qed.

Lemma eqb_ltb_compat (x y s : float) :
  (x =? y) = true -> (s <? x) = (s <? y).
Proof.
  intros E. destruct (s <? x) eqn:L1.
  - symmetry. float_order.
  - symmetry. apply not_true_iff_false. intros L2.
    assert ((s <? x) = true) by float_order. congruence.
Qed.

Lemma fkey_range (x : float) :
  (-2 <= (fkey x).1.1 <= 3)%Z /\
  ((fkey x).1.1 = (-2)%Z -> (fkey x).1.2 = 0%Z /\ (fkey x).2 = 0%Z).
Proof. unfold fkey. destruct (Prim2SF x) as [s | [] | | [] m e]; simpl; lia. Qed.

Lemma neg_infinity_leb (x : float) : is_nan x = false -> (neg_infinity <=? x) = true.
Proof.
  intros Hx. apply leb_iff. split; [reflexivity |]. split; [exact Hx |].
  pose proof (fkey_range x) as [Hr Hz].
  assert ((fkey x).1.1 <> 3%Z).
  { intros E. apply sfKey_nan in E. now apply is_nan_false_iff in Hx. }
  change (fkey neg_infinity) with (-2, 0, 0)%Z.
  unfold lexLt, lexEq. simpl. lia.
Qed.

Lemma above_threshold_positive (x : float) : (0.3 <? x) = true -> (0 <? x) = true.
Proof.
  intros H. apply (ltb_trans 0 0.3 x); [reflexivity | exact H].
Qed.

Lemma ltb_zero_positiveSF (x : float) : (0 <? x) = true -> positiveSF (Prim2SF x).
Proof.
  rewrite FloatAxioms.ltb_spec. change (Prim2SF 0) with (S754_zero false).
  unfold SFltb, positiveSF.
  destruct (Prim2SF x) as [s | [] | | [] m e]; simpl; try discriminate; intros _.
  - now left.
  - right. now exists m, e.
Qed.

(** The sign of the comparator's difference tells the order of two
    numbers above zero; with two infinities the difference is NaN, which
    is not below zero. *)
Lemma sub_ltb_zero (x y : float) :
  (0 <? x) = true -> (0 <? y) = true -> (x - y <? 0) = (x <? y).
Proof.
  intros Hx Hy. rewrite !FloatAxioms.ltb_spec, sub_spec.
  change (Prim2SF 0) with (S754_zero false).
  apply SFsub_ltb_zero;
    [apply Prim2SF_valid | apply Prim2SF_valid | |]; now apply ltb_zero_positiveSF.
Qed.

(** A product with a finite constant is NaN only if the other factor
    is. *)
Lemma mul_is_number (x c : float) :
  (exists s m e, Prim2SF c = S754_finite s m e) ->
  is_nan x = false -> is_nan (x * c) = false.
Proof.
  intros Hc Hx. apply is_nan_false_iff. rewrite mul_spec.
  apply SFmul_not_nan; [now apply is_nan_false_iff | exact Hc].
Qed.

Lemma mul_2_is_number (x : float) : is_nan x = false -> is_nan (x * 2.0) = false.
Proof. apply mul_is_number. eexists _, _, _. vm_compute. reflexivity. Qed.

Lemma mul_1_8_is_number (x : float) : is_nan x = false -> is_nan (x * 1.8) = false.
Proof. apply mul_is_number. eexists _, _, _. vm_compute. reflexivity. Qed.

End PrimFloatOrder.

(** ** [Math.max] *)

Section MathMax64.

Local Open Scope float_scope.

Lemma max2_cases64 (highest number : float) :
  is_nan highest = false -> is_nan number = false ->
  (Binary64.max2 highest number = number \/ Binary64.max2 highest number = highest) /\
  is_nan (Binary64.max2 highest number) = false /\
  (highest <=? Binary64.max2 highest number) = true /\
  (number <=? Binary64.max2 highest number) = true.
Proof.
  intros Hh Hn. unfold Binary64.max2. rewrite Hh, Hn.
  destruct (Leibniz.eqb number zero && Leibniz.eqb highest neg_zero) eqn:Z.
  - apply andb_true_iff in Z as [Zn Zh].
    apply Leibniz.eqb_spec in Zn, Zh. subst.
    split; [now left |]. split; [reflexivity |]. split; reflexivity.
  - destruct (highest <? number) eqn:L.
    + split; [now left |]. split; [exact Hn |].
      split; [now apply ltb_leb | now apply leb_refl].
    + split; [now right |]. split; [exact Hh |].
      split; [now apply leb_refl | now apply not_ltb_leb].
Qed.

Lemma fold_max2_spec64 (values : list float) (highest : float) :
  is_nan highest = false ->
  (forall x, In x values -> is_nan x = false) ->
  is_nan (fold_left Binary64.max2 values highest) = false /\
  (highest <=? fold_left Binary64.max2 values highest) = true /\
  (forall x, In x values -> (x <=? fold_left Binary64.max2 values highest) = true) /\
  (fold_left Binary64.max2 values highest = highest \/
   In (fold_left Binary64.max2 values highest) values).
Proof.
  revert highest. induction values as [| v values IH]; intros highest Hh Hall; simpl.
  - split; [exact Hh |]. split; [now apply leb_refl |]. split; [intros x [] | now left].
  - destruct (max2_cases64 highest v Hh (Hall v (or_introl eq_refl)))
      as (Hcase & Hnum & Hle_h & Hle_v).
    destruct (IH (Binary64.max2 highest v) Hnum (fun x Hx => Hall x (or_intror Hx)))
      as (Hr & Hle & Hub & Hin).
    split; [exact Hr |]. split; [eapply leb_trans; eassumption |]. split.
    + intros x [<- | Hx]; [eapply leb_trans; eassumption | now apply Hub].
    + destruct Hin as [E | Hin]; [| now right; right].
      rewrite E. destruct Hcase as [-> | ->]; [right; now left | now left].
Qed.

(** Without NaN among its arguments [Math.max] returns a number that
    none of them exceeds and, when there is an argument, that equals one
    of them. *)
Lemma Math_max_spec64 (values : list float) :
  (forall x, In x values -> is_nan x = false) ->
  is_nan (Binary64.Math_max values) = false /\
  (forall x, In x values -> (x <=? Binary64.Math_max values) = true) /\
  (values <> [] -> Binary64.is_max (Binary64.Math_max values) values).
Proof.
  intros Hall. unfold Binary64.Math_max.
  destruct (fold_max2_spec64 values neg_infinity eq_refl Hall) as (Hr & Hle & Hub & Hin).
  split; [exact Hr |]. split; [exact Hub |].
  intros Hne. split; [| exact Hub].
  destruct Hin as [E | Hin].
  - destruct values as [| v values]; [congruence |].
    exists v. split; [now left |].
    apply leb_antisym; [apply Hub; now left |].
    rewrite E. apply neg_infinity_leb, Hall. now left.
  - eexists. split; [exact Hin |]. now apply eqb_refl.
Qed.

End MathMax64.

(** ** The stable sort with a comparator on numbers *)

Section Sort64.

Local Open Scope float_scope.

Context {A : Type}.

Lemma sort_insert_Permutation64 (compareFn : A -> A -> float) (x : A) (l : list A) :
  Binary64.sort_insert compareFn x l ≡ₚ x :: l.
Proof.
  induction l as [| y l IH]; simpl; [reflexivity |].
  destruct (compareFn y x <? 0); [| reflexivity].
  rewrite IH. apply Permutation_swap.
Qed.

Lemma Array_sort_Permutation64 (compareFn : A -> A -> float) (l : list A) :
  Binary64.Array_sort compareFn l ≡ₚ l.
Proof.
  induction l as [| x l IH]; simpl; [reflexivity |].
  rewrite sort_insert_Permutation64. now rewrite IH.
Qed.

Lemma Array_sort_length64 (compareFn : A -> A -> float) (l : list A) :
  length (Binary64.Array_sort compareFn l) = length l.
Proof. now rewrite Array_sort_Permutation64. Qed.

Lemma sort_insert_map64 {B : Type} (compareFn : A -> A -> float) (g : B -> A)
    (x : B) (l : list B) :
  Binary64.sort_insert compareFn (g x) (map g l) =
  map g (Binary64.sort_insert (fun a b => compareFn (g a) (g b)) x l).
Proof.
  induction l as [| y l IH]; simpl; [reflexivity |].
  destruct (compareFn (g y) (g x) <? 0); simpl; [| reflexivity].
  now rewrite IH.
Qed.

Lemma Array_sort_map64 {B : Type} (compareFn : A -> A -> float) (g : B -> A) (l : list B) :
  Binary64.Array_sort compareFn (map g l) =
  map g (Binary64.Array_sort (fun a b => compareFn (g a) (g b)) l).
Proof.
  unfold Binary64.Array_sort.
  induction l as [| x l IH]; simpl; [reflexivity |].
  rewrite IH. apply sort_insert_map64.
Qed.

Lemma filter_sort_insert64 (compareFn : A -> A -> float) (P : A -> bool) (x : A)
    (l : list A) :
  (forall y, In y l -> P x = true -> (compareFn y x <? 0) = true -> P y = false) ->
  List.filter P (Binary64.sort_insert compareFn x l) = List.filter P (x :: l).
Proof.
  induction l as [| y l IH]; intros Hpass; simpl; [reflexivity |].
  destruct (compareFn y x <? 0) eqn:Hlt; [| reflexivity].
  simpl. rewrite IH by (intros z Hz; apply Hpass; now right). simpl.
  destruct (P x) eqn:Hx; [| reflexivity].
  now rewrite (Hpass y (or_introl eq_refl) eq_refl Hlt).
Qed.

Variable key : A -> float.

Let desc : A -> A -> float := Binary64.descBy key.

(** The keys are numbers above zero, as the scores that pass the filter
    are. *)
Let positive (a : A) : Prop := (0 <? key a) = true.

Lemma desc_ltb_zero64 (x y : A) :
  positive x -> positive y -> (desc y x <? 0) = (key x <? key y).
Proof. intros Hx Hy. unfold desc, Binary64.descBy. now apply sub_ltb_zero. Qed.

Lemma sort_insert_sorted64 (x : A) (l : list A) :
  positive x -> Forall positive l ->
  StronglySorted (Binary64.keyGe key) l ->
  StronglySorted (Binary64.keyGe key) (Binary64.sort_insert desc x l).
Proof.
  intros Hx Hl Hs. induction Hs as [| y l Hs IH Hy]; simpl.
  - constructor; constructor.
  - apply Forall_cons in Hl as [Hpy Hl].
    rewrite desc_ltb_zero64 by assumption.
    destruct (key x <? key y) eqn:Hlt.
    + constructor; [now apply IH |].
      rewrite sort_insert_Permutation64. constructor; [| exact Hy].
      unfold Binary64.keyGe. now apply ltb_leb.
    + assert (Hyx : (key y <=? key x) = true).
      { destruct (ltb_is_number _ _ Hx) as [_ Nx].
        destruct (ltb_is_number _ _ Hpy) as [_ Ny]. now apply not_ltb_leb. }
      constructor; [now constructor |].
      constructor; [exact Hyx |].
      eapply Forall_impl; [exact Hy |]. unfold Binary64.keyGe. intros z Hz.
      eapply leb_trans; eassumption.
Qed.

Lemma Forall_sort64 (P : A -> Prop) (compareFn : A -> A -> float) (l : list A) :
  Forall P l -> Forall P (Binary64.Array_sort compareFn l).
Proof. intros H. now rewrite Array_sort_Permutation64. Qed.

Lemma Array_sort_sorted64 (l : list A) :
  Forall positive l -> StronglySorted (Binary64.keyGe key) (Binary64.Array_sort desc l).
Proof.
  induction l as [| x l IH]; intros Hl; simpl; [constructor |].
  apply Forall_cons in Hl as [Hx Hl].
  apply sort_insert_sorted64; [exact Hx | now apply Forall_sort64 | now apply IH].
Qed.

(** Stability: the elements whose key equals [s] keep their order. *)
Lemma Array_sort_stable64 (s : float) (l : list A) :
  Forall positive l ->
  List.filter (fun a => key a =? s) (Binary64.Array_sort desc l) =
  List.filter (fun a => key a =? s) l.
Proof.
  induction l as [| x l IH]; intros Hl; [reflexivity |].
  apply Forall_cons in Hl as [Hx Hl].
  change (Binary64.Array_sort desc (x :: l))
    with (Binary64.sort_insert desc x (Binary64.Array_sort desc l)).
  rewrite filter_sort_insert64.
  - simpl. now rewrite IH.
  - intros y Hy Hxs Hlt.
    assert (Hpy : positive y).
    { pose proof (Forall_sort64 positive desc l Hl) as Hall.
      rewrite Forall_forall in Hall. apply Hall. now apply list_elem_of_In. }
    rewrite desc_ltb_zero64 in Hlt by assumption.
    exact (ltb_not_eqb _ _ _ Hlt Hxs).
Qed.

(** A list of positive keys sorted by descending key is determined by its
    classes of equal key. *)
Lemma sorted_classes_eq64 (l1 l2 : list A) :
  Forall positive l1 -> Forall positive l2 ->
  StronglySorted (Binary64.keyGe key) l1 ->
  StronglySorted (Binary64.keyGe key) l2 ->
  (forall s, List.filter (fun a => key a =? s) l1 = List.filter (fun a => key a =? s) l2) ->
  l1 = l2.
Proof.
  assert (Hrefl : forall a, positive a -> (key a =? key a) = true).
  { intros a Ha. apply eqb_refl. now destruct (ltb_is_number _ _ Ha). }
  revert l2. induction l1 as [| x l1 IH]; intros [| y l2] Hp1 Hp2 Hs1 Hs2 Hcl.
  - reflexivity.
  - apply Forall_cons in Hp2 as [Hy _].
    specialize (Hcl (key y)). simpl in Hcl. rewrite (Hrefl y Hy) in Hcl. discriminate.
  - apply Forall_cons in Hp1 as [Hx _].
    specialize (Hcl (key x)). simpl in Hcl. rewrite (Hrefl x Hx) in Hcl. discriminate.
  - apply Forall_cons in Hp1 as [Hx Hp1]. apply Forall_cons in Hp2 as [Hy Hp2].
    apply StronglySorted_inv in Hs1 as [Hs1 Hfx].
    apply StronglySorted_inv in Hs2 as [Hs2 Hfy].
    assert (Hxy : (key x <=? key y) = true).
    { assert (Hin : In x (y :: l2)).
      { eapply (proj1 (filter_In _ _ _)). rewrite <- (Hcl (key x)).
        simpl. rewrite (Hrefl x Hx). now left. }
      destruct Hin as [-> | Hin]; [now apply eqb_leb, Hrefl |].
      rewrite Forall_forall in Hfy. apply Hfy, list_elem_of_In, Hin. }
    assert (Hyx : (key y <=? key x) = true).
    { assert (Hin : In y (x :: l1)).
      { eapply (proj1 (filter_In _ _ _)). rewrite (Hcl (key y)).
        simpl. rewrite (Hrefl y Hy). now left. }
      destruct Hin as [-> | Hin]; [now apply eqb_leb, Hrefl |].
      rewrite Forall_forall in Hfx. apply Hfx, list_elem_of_In, Hin. }
    assert (Heq : (key y =? key x) = true) by now apply leb_antisym.
    pose proof (Hcl (key x)) as Hhead. simpl in Hhead.
    rewrite (Hrefl x Hx), Heq in Hhead. injection Hhead as <- _.
    f_equal. apply IH; [exact Hp1 | exact Hp2 | exact Hs1 | exact Hs2 |].
    intros s. specialize (Hcl s). simpl in Hcl.
    destruct (key x =? s); [now injection Hcl | exact Hcl].
Qed.

(** Whatever algorithm the engine runs, a sorted and stable rearrangement
    of a list of positive keys is the list [Array_sort] computes. *)
Lemma Array_sort_unique64 (l l' : list A) :
  Forall positive l -> l' ≡ₚ l ->
  StronglySorted (Binary64.keyGe key) l' ->
  (forall s, List.filter (fun a => key a =? s) l' = List.filter (fun a => key a =? s) l) ->
  l' = Binary64.Array_sort desc l.
Proof.
  intros Hl Hperm Hs Hst. apply sorted_classes_eq64.
  - now rewrite Hperm.
  - now apply Forall_sort64.
  - exact Hs.
  - now apply Array_sort_sorted64.
  - intros s. now rewrite Array_sort_stable64.
Qed.

End Sort64.

(** * The matcher on binary64 numbers *)

Section MathMaxNaN64.

Local Open Scope float_scope.

Lemma fold_max2_nan64 (values : list float) (highest : float) :
  is_nan highest = true -> is_nan (fold_left Binary64.max2 values highest) = true.
Proof.
  revert highest. induction values as [| v values IH]; intros highest Hh; simpl;
    [exact Hh |].
  apply IH. unfold Binary64.max2. now rewrite Hh.
Qed.

(** NaN among the arguments of [Math.max] makes the result NaN. *)
Lemma Math_max_nan64 (values : list float) (x : float) :
  In x values -> is_nan x = true -> is_nan (Binary64.Math_max values) = true.
Proof.
  unfold Binary64.Math_max. generalize neg_infinity.
  induction values as [| v values IH]; intros highest Hin Hx; [destruct Hin |].
  destruct Hin as [<- | Hin]; simpl.
  - apply fold_max2_nan64. unfold Binary64.max2.
    destruct (is_nan highest) eqn:Hh; [exact Hh |]. now rewrite Hx.
  - now apply IH.
Qed.

Lemma Math_max_number64 (values : list float) (x : float) :
  is_nan (Binary64.Math_max values) = false -> In x values -> is_nan x = false.
Proof.
  intros Hr Hin. destruct (is_nan x) eqn:Hx; [| reflexivity].
  rewrite (Math_max_nan64 values x Hin Hx) in Hr. discriminate.
Qed.

Lemma eqb_comm (x y : float) : (x =? y) = (y =? x).
Proof.
  destruct (x =? y) eqn:E1, (y =? x) eqn:E2; try reflexivity.
  - apply eqb_sym in E1. congruence.
  - apply eqb_sym in E2. congruence.
Qed.

End MathMaxNaN64.

Section Scoring64.

Local Open Scope float_scope.

Variable fuzzySearch : string -> string -> float.

Lemma In_scoredIcons64 (iconList : list Icon) (query : string) (item : Binary64.ScoredIcon) :
  In item (Binary64.scoredIcons fuzzySearch iconList query) ->
  In (Binary64.icon item) iconList /\
  item = Binary64.scoreIcon fuzzySearch query (Binary64.icon item).
Proof.
  unfold Binary64.scoredIcons. rewrite in_map_iff. intros (i & <- & Hi). now split.
Qed.

Lemma score_scoreIcon64 (query : string) (i : Icon) :
  Binary64.score (Binary64.scoreIcon fuzzySearch query i) =
  Binary64.Math_max
    [Binary64.nameScore fuzzySearch query i;
     Binary64.aliasScore fuzzySearch query i;
     Binary64.categoryScore fuzzySearch query i].
Proof. reflexivity. Qed.

Lemma matchedField_scoreIcon64 (query : string) (i : Icon) :
  Binary64.matchedField (Binary64.scoreIcon fuzzySearch query i) =
  if Binary64.scoreOf fuzzySearch query i =? Binary64.nameScore fuzzySearch query i
  then Name
  else if Binary64.scoreOf fuzzySearch query i =? Binary64.aliasScore fuzzySearch query i
       then Alias
       else Category.
Proof. reflexivity. Qed.

(** A score that is a number equals one of the three field scores, which
    are numbers too. *)
Lemma scoreOf_cases64 (query : string) (i : Icon) :
  is_nan (Binary64.scoreOf fuzzySearch query i) = false ->
  exists f,
    (Binary64.fieldScore fuzzySearch query i f =? Binary64.scoreOf fuzzySearch query i) = true.
Proof.
  unfold Binary64.scoreOf. rewrite score_scoreIcon64. intros Hs.
  set (fields := [Binary64.nameScore fuzzySearch query i;
                  Binary64.aliasScore fuzzySearch query i;
                  Binary64.categoryScore fuzzySearch query i]) in *.
  destruct (Math_max_spec64 fields (fun x => Math_max_number64 fields x Hs)) as (_ & _ & Hmax).
  destruct Hmax as [(x & Hin & Hx) _]; [discriminate |].
  destruct Hin as [<- | [<- | [<- | []]]].
  - now exists Name.
  - now exists Alias.
  - now exists Category.
Qed.

Section Numbers.

Hypothesis fuzzySearch_number : forall text query, is_nan (fuzzySearch text query) = false.

Lemma similarities_number (query : string) (l : list string) (x : float) :
  In x (map (fun text => fuzzySearch text query) l) -> is_nan x = false.
Proof. rewrite in_map_iff. intros (text & <- & _). apply fuzzySearch_number. Qed.

Lemma nameScore_number (query : string) (i : Icon) :
  is_nan (Binary64.nameScore fuzzySearch query i) = false.
Proof. apply mul_2_is_number, fuzzySearch_number. Qed.

Lemma aliasScore_number (query : string) (i : Icon) :
  is_nan (Binary64.aliasScore fuzzySearch query i) = false.
Proof.
  unfold Binary64.aliasScore. destruct (aliases (data i)) as [| a l]; [reflexivity |].
  apply mul_1_8_is_number, Math_max_spec64, similarities_number.
Qed.

Lemma categoryScore_number (query : string) (i : Icon) :
  is_nan (Binary64.categoryScore fuzzySearch query i) = false.
Proof.
  unfold Binary64.categoryScore. destruct (categories (data i)) as [| c l]; [reflexivity |].
  apply Math_max_spec64, similarities_number.
Qed.

Lemma fields_number (query : string) (i : Icon) (x : float) :
  In x [Binary64.nameScore fuzzySearch query i;
        Binary64.aliasScore fuzzySearch query i;
        Binary64.categoryScore fuzzySearch query i] ->
  is_nan x = false.
Proof.
  intros [<- | [<- | [<- | []]]];
    [apply nameScore_number | apply aliasScore_number | apply categoryScore_number].
Qed.

Lemma scoreOf_number (query : string) (i : Icon) :
  is_nan (Binary64.scoreOf fuzzySearch query i) = false.
Proof.
  unfold Binary64.scoreOf. rewrite score_scoreIcon64.
  apply Math_max_spec64, fields_number.
Qed.

End Numbers.

End Scoring64.

Lemma roundingSearch_number (text query : string) :
  is_nan (roundingSearch text query) = false.
Proof.
  unfold roundingSearch. cbn [Binary64.tableSearch].
  destruct (String.eqb "by-name" text); [reflexivity |].
  destruct (String.eqb "the-alias" text); reflexivity.
Defined.

(** C1: when [fuzzySearch] returns numbers, every element of
    [scoredIcons], for a non-empty query, belongs to an icon of the input
    and its score is the maximum of the three field scores of that icon,
    where the name score is the product [fuzzy(name, query) * 2.0], the
    alias score is 0 without aliases and otherwise the product with 1.8 of
    the maximum of [fuzzy(alias, query)] over the aliases, and the
    category score is 0 without categories and otherwise the maximum of
    [fuzzy(category, query)] over the categories; products, comparison
    and equality being those of binary64 numbers. *)
Theorem score_is_max_of_field_scores
    (fuzzySearch : string -> string -> float) (iconList : list Icon)
    (query : string) (item : Binary64.ScoredIcon) :
  (forall text q, is_nan (fuzzySearch text q) = false) ->
  query <> "" ->
  In item (Binary64.scoredIcons fuzzySearch iconList query) ->
  In (Binary64.icon item) iconList /\
  Binary64.is_max (Binary64.score item)
    [Binary64.nameScore fuzzySearch query (Binary64.icon item);
     Binary64.aliasScore fuzzySearch query (Binary64.icon item);
     Binary64.categoryScore fuzzySearch query (Binary64.icon item)] /\
  Binary64.nameScore fuzzySearch query (Binary64.icon item) =
    (fuzzySearch (name (Binary64.icon item)) query * 2.0)%float /\
  (aliases (data (Binary64.icon item)) = [] ->
     Binary64.aliasScore fuzzySearch query (Binary64.icon item) = 0%float) /\
  (aliases (data (Binary64.icon item)) <> [] ->
     exists m,
       Binary64.is_max m
         (map (fun alias => fuzzySearch alias query) (aliases (data (Binary64.icon item)))) /\
       Binary64.aliasScore fuzzySearch query (Binary64.icon item) = (m * 1.8)%float) /\
  (categories (data (Binary64.icon item)) = [] ->
     Binary64.categoryScore fuzzySearch query (Binary64.icon item) = 0%float) /\
  (categories (data (Binary64.icon item)) <> [] ->
     exists m,
       Binary64.is_max m
         (map (fun category => fuzzySearch category query)
            (categories (data (Binary64.icon item)))) /\
       Binary64.categoryScore fuzzySearch query (Binary64.icon item) = m).
Proof.
  intros Hnum _ Hitem. apply In_scoredIcons64 in Hitem as [Hin Hitem].
  set (i := Binary64.icon item) in *.
  split; [exact Hin |]. split.
  { rewrite Hitem, score_scoreIcon64.
    apply Math_max_spec64; [now apply fields_number | discriminate]. }
  split; [reflexivity |]. split.
  { intros E. unfold Binary64.aliasScore. now rewrite E. }
  split.
  { intros Hne. unfold Binary64.aliasScore.
    destruct (aliases (data i)) as [| a l] eqn:E; [congruence |].
    eexists. split; [| reflexivity].
    apply Math_max_spec64; [now apply similarities_number | discriminate]. }
  split.
  { intros E. unfold Binary64.categoryScore. now rewrite E. }
  intros Hne. unfold Binary64.categoryScore.
  destruct (categories (data i)) as [| c l] eqn:E; [congruence |].
  eexists. split; [| reflexivity].
  apply Math_max_spec64; [now apply similarities_number | discriminate].
Qed.

Lemma score_is_max_of_field_scores_witness :
  (forall text q, is_nan (roundingSearch text q) = false) /\
  "q" <> "" /\
  In (Binary64.scoreIcon roundingSearch "q" byBoth)
    (Binary64.scoredIcons roundingSearch [byName; byBoth] "q") /\
  Binary64.is_max (Binary64.score (Binary64.scoreIcon roundingSearch "q" byBoth))
    [Binary64.nameScore roundingSearch "q" byBoth;
     Binary64.aliasScore roundingSearch "q" byBoth;
     Binary64.categoryScore roundingSearch "q" byBoth].
Proof.
  assert (Hq : "q" <> "") by discriminate.
  assert (Hin : In (Binary64.scoreIcon roundingSearch "q" byBoth)
                  (Binary64.scoredIcons roundingSearch [byName; byBoth] "q"))
    by (right; left; reflexivity).
  split; [exact roundingSearch_number |]. split; [exact Hq |]. split; [exact Hin |].
  exact (proj1 (proj2
    (score_is_max_of_field_scores roundingSearch [byName; byBoth] "q" _
       roundingSearch_number Hq Hin))).
Defined.

(** C7: when [fuzzySearch] returns numbers, the matched field of every
    element of [scoredIcons], for a non-empty query, is a field whose
    weighted score equals the overall score, chosen in the order name,
    alias, category: it is the name when the name score equals the
    overall score, otherwise the alias when the alias score equals it,
    otherwise the category; equality being [===] on binary64 numbers. *)
Theorem matchedField_is_first_winner
    (fuzzySearch : string -> string -> float) (iconList : list Icon)
    (query : string) (item : Binary64.ScoredIcon) :
  (forall text q, is_nan (fuzzySearch text q) = false) ->
  query <> "" ->
  In item (Binary64.scoredIcons fuzzySearch iconList query) ->
  (Binary64.fieldScore fuzzySearch query (Binary64.icon item) (Binary64.matchedField item)
   =? Binary64.score item)%float = true /\
  ((Binary64.nameScore fuzzySearch query (Binary64.icon item) =? Binary64.score item)%float
   = true ->
     Binary64.matchedField item = Name) /\
  ((Binary64.nameScore fuzzySearch query (Binary64.icon item) =? Binary64.score item)%float
   = false ->
   (Binary64.aliasScore fuzzySearch query (Binary64.icon item) =? Binary64.score item)%float
   = true ->
     Binary64.matchedField item = Alias) /\
  ((Binary64.nameScore fuzzySearch query (Binary64.icon item) =? Binary64.score item)%float
   = false ->
   (Binary64.aliasScore fuzzySearch query (Binary64.icon item) =? Binary64.score item)%float
   = false ->
     Binary64.matchedField item = Category).
Proof.
  intros Hnum _ Hitem. apply In_scoredIcons64 in Hitem as [_ Hitem].
  set (i := Binary64.icon item) in *. rewrite Hitem. clearbody i. clear Hitem item.
  rewrite matchedField_scoreIcon64.
  change (Binary64.score (Binary64.scoreIcon fuzzySearch query i))
    with (Binary64.scoreOf fuzzySearch query i).
  destruct (scoreOf_cases64 fuzzySearch query i (scoreOf_number fuzzySearch Hnum query i))
    as [f Hf].
  set (s := Binary64.scoreOf fuzzySearch query i) in *. clearbody s.
  rewrite (eqb_comm s (Binary64.nameScore fuzzySearch query i)).
  rewrite (eqb_comm s (Binary64.aliasScore fuzzySearch query i)).
  destruct (Binary64.nameScore fuzzySearch query i =? s)%float eqn:En.
  - cbn [Binary64.fieldScore]. repeat split; intros; try reflexivity; congruence.
  - destruct (Binary64.aliasScore fuzzySearch query i =? s)%float eqn:Ea.
    + cbn [Binary64.fieldScore]. repeat split; intros; try reflexivity; congruence.
    + cbn [Binary64.fieldScore]. repeat split; intros; try reflexivity; try congruence.
      destruct f; cbn [Binary64.fieldScore] in Hf; congruence.
Qed.

Lemma matchedField_is_first_winner_witness :
  (forall text q, is_nan (roundingSearch text q) = false) /\
  "q" <> "" /\
  In (Binary64.scoreIcon roundingSearch "q" byBoth)
    (Binary64.scoredIcons roundingSearch [byName; byBoth] "q") /\
  Binary64.matchedField (Binary64.scoreIcon roundingSearch "q" byBoth) = Alias.
Proof.
  assert (Hq : "q" <> "") by discriminate.
  assert (Hin : In (Binary64.scoreIcon roundingSearch "q" byBoth)
                  (Binary64.scoredIcons roundingSearch [byName; byBoth] "q"))
    by (right; left; reflexivity).
  split; [exact roundingSearch_number |]. split; [exact Hq |]. split; [exact Hin |].
  apply (proj1 (proj2 (proj2
    (matchedField_is_first_winner roundingSearch [byName; byBoth] "q" _
       roundingSearch_number Hq Hin)))); reflexivity.
Defined.

(** ** Ranking on binary64 numbers *)

Section Ranking64.

Local Open Scope float_scope.

Variable fuzzySearch : string -> string -> float.

Lemma getFilteredIcons_empty64 (iconList : list Icon) :
  Binary64.getFilteredIcons fuzzySearch iconList "" = take 8 iconList.
Proof. unfold Binary64.getFilteredIcons. simpl. apply Array_slice_0. Qed.

(** For a non-empty query the result is the first 20 icons of the stable
    descending sort, by score, of the icons above the threshold. *)
Lemma getFilteredIcons_nonempty64 (iconList : list Icon) (query : string) :
  query <> "" ->
  Binary64.getFilteredIcons fuzzySearch iconList query =
  take 20
    (Binary64.Array_sort (Binary64.descBy (Binary64.scoreOf fuzzySearch query))
       (Binary64.above fuzzySearch query iconList)).
Proof.
  intros Hq. unfold Binary64.getFilteredIcons, Binary64.above.
  apply String.eqb_neq in Hq. rewrite Hq.
  unfold Binary64.scoredIcons. rewrite Array_slice_0, filter_map_comm.
  change Binary64.byScoreDesc with (Binary64.descBy Binary64.score).
  rewrite Array_sort_map64, <- firstn_map, map_map.
  change (fun a b => Binary64.descBy Binary64.score
                       (Binary64.scoreIcon fuzzySearch query a)
                       (Binary64.scoreIcon fuzzySearch query b))
    with (Binary64.descBy (Binary64.scoreOf fuzzySearch query)).
  f_equal. exact (map_id _).
Qed.

Lemma In_above64 (query : string) (i : Icon) (l : list Icon) :
  In i (Binary64.above fuzzySearch query l) <->
  In i l /\ (0.3 <? Binary64.scoreOf fuzzySearch query i) = true.
Proof. unfold Binary64.above. rewrite filter_In. reflexivity. Qed.

Lemma above_positive64 (query : string) (l : list Icon) :
  Forall (fun i => (0 <? Binary64.scoreOf fuzzySearch query i) = true)
    (Binary64.above fuzzySearch query l).
Proof.
  apply Forall_forall. intros i Hi. apply list_elem_of_In, In_above64 in Hi as [_ Hi].
  now apply above_threshold_positive.
Qed.

(** The sort of the icons above the threshold. *)
Lemma ranked_spec64 (query : string) (l : list Icon) :
  Binary64.Array_sort (Binary64.descBy (Binary64.scoreOf fuzzySearch query))
    (Binary64.above fuzzySearch query l)
  ≡ₚ Binary64.above fuzzySearch query l /\
  StronglySorted (Binary64.keyGe (Binary64.scoreOf fuzzySearch query))
    (Binary64.Array_sort (Binary64.descBy (Binary64.scoreOf fuzzySearch query))
       (Binary64.above fuzzySearch query l)) /\
  (forall s,
     Binary64.withScore fuzzySearch query s
       (Binary64.Array_sort (Binary64.descBy (Binary64.scoreOf fuzzySearch query))
          (Binary64.above fuzzySearch query l)) =
     Binary64.withScore fuzzySearch query s (Binary64.above fuzzySearch query l)).
Proof.
  split; [apply Array_sort_Permutation64 |]. split.
  - apply Array_sort_sorted64, above_positive64.
  - intros s. unfold Binary64.withScore.
    apply (Array_sort_stable64 (Binary64.scoreOf fuzzySearch query)), above_positive64.
Qed.

Lemma In_ranked64 (query : string) (i : Icon) (l : list Icon) :
  In i (Binary64.Array_sort (Binary64.descBy (Binary64.scoreOf fuzzySearch query))
          (Binary64.above fuzzySearch query l)) <->
  In i l /\ (0.3 <? Binary64.scoreOf fuzzySearch query i) = true.
Proof.
  rewrite <- In_above64. split; apply Permutation_in.
  - apply Array_sort_Permutation64.
  - symmetry. apply Array_sort_Permutation64.
Qed.

Lemma withScore_above_prefix64 (query : string) (s : float) (l : list Icon) :
  Binary64.withScore fuzzySearch query s (Binary64.above fuzzySearch query l)
  `prefix_of` Binary64.withScore fuzzySearch query s l.
Proof.
  unfold Binary64.withScore, Binary64.above.
  rewrite (filter_filter_class _ _ (0.3 <? s)).
  - destruct (0.3 <? s); [reflexivity | apply prefix_nil].
  - intros x Hx. unfold Binary64.aboveThreshold. now apply eqb_ltb_compat.
Qed.

(** Two icons of equal score that stand in some order in a list stand in
    that order among the icons of their score. *)
Lemma pair_in_withScore64 (query : string) (a b : Icon) (l : list Icon) :
  (Binary64.scoreOf fuzzySearch query a =? Binary64.scoreOf fuzzySearch query b) = true ->
  [a; b] `sublist_of` l ->
  [a; b] `sublist_of`
    Binary64.withScore fuzzySearch query (Binary64.scoreOf fuzzySearch query a) l.
Proof.
  intros Heq Hsub.
  apply (filter_sublist_mono
           (fun i => Binary64.scoreOf fuzzySearch query i
                     =? Binary64.scoreOf fuzzySearch query a))
    in Hsub.
  simpl in Hsub.
  rewrite (eqb_sym _ _ Heq) in Hsub.
  assert ((Binary64.scoreOf fuzzySearch query a =? Binary64.scoreOf fuzzySearch query a) = true)
    as Ha by (eapply eqb_trans; [exact Heq | now apply eqb_sym]).
  rewrite Ha in Hsub. exact Hsub.
Qed.

End Ranking64.

(** C2: for a non-empty query the result is sorted by non-increasing
    score, and ties keep the input order: for every number [s] the
    returned icons whose score equals [s] are an initial segment of the
    input icons whose score equals [s], so that two icons of equal score
    which are returned one before the other stand in that order in the
    input; scores, comparison and equality being those of binary64
    numbers. *)
Theorem result_sorted_and_stable
    (fuzzySearch : string -> string -> float) (iconList : list Icon) (query : string) :
  query <> "" ->
  StronglySorted (Binary64.keyGe (Binary64.scoreOf fuzzySearch query))
    (Binary64.getFilteredIcons fuzzySearch iconList query) /\
  (forall s : float,
     Binary64.withScore fuzzySearch query s
       (Binary64.getFilteredIcons fuzzySearch iconList query)
     `prefix_of` Binary64.withScore fuzzySearch query s iconList) /\
  (forall a b : Icon,
     (Binary64.scoreOf fuzzySearch query a =? Binary64.scoreOf fuzzySearch query b)%float
     = true ->
     [a; b] `sublist_of` Binary64.getFilteredIcons fuzzySearch iconList query ->
     [a; b] `sublist_of` iconList).
Proof.
  intros Hq.
  destruct (ranked_spec64 fuzzySearch query iconList) as (_ & Hsorted & Hstable).
  assert (Hprefix : forall s : float,
            Binary64.withScore fuzzySearch query s
              (Binary64.getFilteredIcons fuzzySearch iconList query)
            `prefix_of` Binary64.withScore fuzzySearch query s iconList).
  { intros s. rewrite getFilteredIcons_nonempty64 by exact Hq.
    etransitivity; [apply filter_take_prefix |].
    fold (Binary64.withScore fuzzySearch query s
            (Binary64.Array_sort (Binary64.descBy (Binary64.scoreOf fuzzySearch query))
               (Binary64.above fuzzySearch query iconList))).
    rewrite Hstable. apply withScore_above_prefix64. }
  split; [| split; [exact Hprefix |]].
  - rewrite getFilteredIcons_nonempty64 by exact Hq.
    set (sorted := Binary64.Array_sort _ _) in *.
    apply (StronglySorted_app_1_l _ (take 20 sorted) (drop 20 sorted)).
    now rewrite take_drop.
  - intros a b Heq Hsub.
    etransitivity; [apply (pair_in_withScore64 fuzzySearch query a b _ Heq Hsub) |].
    etransitivity; [apply prefix_sublist, Hprefix |].
    apply filter_sublist.
Qed.

Lemma result_sorted_and_stable_witness :
  "q" <> "" /\
  Binary64.getFilteredIcons roundingSearch [byName; byAlias] "q" = [byAlias; byName] /\
  StronglySorted (Binary64.keyGe (Binary64.scoreOf roundingSearch "q"))
    (Binary64.getFilteredIcons roundingSearch [byName; byAlias] "q").
Proof.
  assert (Hq : "q" <> "") by discriminate.
  split; [exact Hq |]. split; [vm_compute; reflexivity |].
  exact (proj1 (result_sorted_and_stable roundingSearch [byName; byAlias] "q" Hq)).
Defined.

(** C3, as the claim states it, fails: with twenty-one icons that all
    score 1 the last one is above the threshold and is not returned. *)
Lemma above_threshold_not_returned :
  ~ (In immich (Binary64.getFilteredIcons Binary64.prefixSearch mediaIcons "media") <->
     In immich mediaIcons /\
     (0.3 <? Binary64.scoreOf Binary64.prefixSearch "media" immich)%float = true).
Proof.
  intros [_ H].
  assert (Hin : In immich (Binary64.getFilteredIcons Binary64.prefixSearch mediaIcons "media")).
  { apply H. split; [| vm_compute; reflexivity].
    unfold mediaIcons. apply in_or_app. right. now left. }
  vm_compute in Hin.
  repeat (destruct Hin as [Hin | Hin]; [discriminate Hin |]).
  exact Hin.
Qed.

(** C3, amended: for a non-empty query every returned icon is an icon of
    the input whose score exceeds 0.3, the score equalling one of its
    three field scores, so that an icon whose score does not exceed 0.3
    is never returned; when at most 20 icons of the input score above
    0.3, every such icon is returned; and in every case the result is
    the first 20 icons of the ranking, the ranking being the icons of the
    input that score above 0.3, sorted by non-increasing score with ties
    in input order: such a list exists, and the result is the first 20
    icons of any such list.  Scores and comparison are those of binary64
    numbers. *)
Theorem returned_iff_above_threshold
    (fuzzySearch : string -> string -> float) (iconList : list Icon)
    (query : string) (i : Icon) :
  query <> "" ->
  (In i (Binary64.getFilteredIcons fuzzySearch iconList query) ->
     In i iconList /\
     (0.3 <? Binary64.scoreOf fuzzySearch query i)%float = true /\
     exists f, (0.3 <? Binary64.fieldScore fuzzySearch query i f)%float = true) /\
  (In i iconList -> (0.3 <? Binary64.scoreOf fuzzySearch query i)%float = false ->
     ~ In i (Binary64.getFilteredIcons fuzzySearch iconList query)) /\
  ((length (Binary64.above fuzzySearch query iconList) <= 20)%nat ->
   (In i (Binary64.getFilteredIcons fuzzySearch iconList query) <->
      In i iconList /\ (0.3 <? Binary64.scoreOf fuzzySearch query i)%float = true)) /\
  (exists ranked : list Icon,
     ranked ≡ₚ Binary64.above fuzzySearch query iconList /\
     StronglySorted (Binary64.keyGe (Binary64.scoreOf fuzzySearch query)) ranked /\
     (forall s : float,
        Binary64.withScore fuzzySearch query s ranked =
        Binary64.withScore fuzzySearch query s (Binary64.above fuzzySearch query iconList)) /\
     Binary64.getFilteredIcons fuzzySearch iconList query = take 20 ranked) /\
  (forall ranked : list Icon,
     ranked ≡ₚ Binary64.above fuzzySearch query iconList ->
     StronglySorted (Binary64.keyGe (Binary64.scoreOf fuzzySearch query)) ranked ->
     (forall s : float,
        Binary64.withScore fuzzySearch query s ranked =
        Binary64.withScore fuzzySearch query s (Binary64.above fuzzySearch query iconList)) ->
     Binary64.getFilteredIcons fuzzySearch iconList query = take 20 ranked).
Proof.
  intros Hq. rewrite getFilteredIcons_nonempty64 by exact Hq.
  set (sorted := Binary64.Array_sort (Binary64.descBy (Binary64.scoreOf fuzzySearch query))
                   (Binary64.above fuzzySearch query iconList)).
  assert (Hsound : In i (take 20 sorted) ->
                   In i iconList /\
                   (0.3 <? Binary64.scoreOf fuzzySearch query i)%float = true).
  { intros Hin. apply In_ranked64. now apply (In_take 20). }
  split; [| split; [| split; [| split]]].
  - intros Hin. destruct (Hsound Hin) as [Hi Hs]. split; [exact Hi |].
    split; [exact Hs |].
    destruct (scoreOf_cases64 fuzzySearch query i) as [f Hf].
    { now destruct (ltb_is_number _ _ Hs). }
    exists f. rewrite (eqb_ltb_compat _ _ 0.3%float Hf). exact Hs.
  - intros _ Hle Hin. destruct (Hsound Hin) as [_ Hs]. congruence.
  - intros Hlen. split; [exact Hsound |].
    intros Hi. rewrite take_ge by (unfold sorted; now rewrite Array_sort_length64).
    now apply In_ranked64.
  - exists sorted.
    destruct (ranked_spec64 fuzzySearch query iconList) as (Hperm & Hsorted & Hstable).
    split; [exact Hperm |]. split; [exact Hsorted |]. split; [exact Hstable | reflexivity].
  - intros ranked Hperm Hsorted Hstable. f_equal. symmetry.
    apply (Array_sort_unique64 (Binary64.scoreOf fuzzySearch query));
      [apply above_positive64 | exact Hperm | exact Hsorted | exact Hstable].
Qed.

Lemma returned_iff_above_threshold_witness :
  "media" <> "" /\
  exists ranked : list Icon,
    ranked ≡ₚ Binary64.above Binary64.prefixSearch "media" mediaIcons /\
    StronglySorted (Binary64.keyGe (Binary64.scoreOf Binary64.prefixSearch "media")) ranked /\
    (forall s : float,
       Binary64.withScore Binary64.prefixSearch "media" s ranked =
       Binary64.withScore Binary64.prefixSearch "media" s
         (Binary64.above Binary64.prefixSearch "media" mediaIcons)) /\
    Binary64.getFilteredIcons Binary64.prefixSearch mediaIcons "media" = take 20 ranked.
Proof.
  assert (Hq : "media" <> "") by discriminate.
  split; [exact Hq |].
  exact (proj1 (proj2 (proj2 (proj2
    (returned_iff_above_threshold Binary64.prefixSearch mediaIcons "media" immich Hq))))).
Defined.

(** X2: for a non-empty query the cut after 20 keeps the best: no
    returned icon scores below an icon of the input that is not
    returned, and such an icon, when its score is a number, scores at
    most what any returned icon scores; scores and comparison being
    those of binary64 numbers. *)
Theorem returned_outrank_dropped
    (fuzzySearch : string -> string -> float) (iconList : list Icon)
    (query : string) (kept dropped : Icon) :
  query <> "" ->
  In kept (Binary64.getFilteredIcons fuzzySearch iconList query) ->
  In dropped iconList ->
  ~ In dropped (Binary64.getFilteredIcons fuzzySearch iconList query) ->
  (Binary64.scoreOf fuzzySearch query kept <? Binary64.scoreOf fuzzySearch query dropped)%float
  = false /\
  (is_nan (Binary64.scoreOf fuzzySearch query dropped) = false ->
   (Binary64.scoreOf fuzzySearch query dropped <=? Binary64.scoreOf fuzzySearch query kept)%float
   = true).
Proof.
  intros Hq. rewrite getFilteredIcons_nonempty64 by exact Hq.
  set (sorted := Binary64.Array_sort (Binary64.descBy (Binary64.scoreOf fuzzySearch query))
                   (Binary64.above fuzzySearch query iconList)).
  intros Hkept Hin Hdropped.
  assert (Hk : (0.3 <? Binary64.scoreOf fuzzySearch query kept)%float = true).
  { apply In_take in Hkept. now apply In_ranked64 in Hkept as [_ Hk]. }
  assert (Hlt : (Binary64.scoreOf fuzzySearch query kept
                 <? Binary64.scoreOf fuzzySearch query dropped)%float = false).
  { destruct (0.3 <? Binary64.scoreOf fuzzySearch query dropped)%float eqn:Hd.
    - assert (Hs : In dropped sorted) by (apply In_ranked64; now split).
      rewrite <- (take_drop 20 sorted) in Hs. apply in_app_or in Hs as [Hs | Hs];
        [contradiction |].
      apply leb_not_ltb.
      apply (StronglySorted_app_1_elem_of
               (Binary64.keyGe (Binary64.scoreOf fuzzySearch query))
               (take 20 sorted) (drop 20 sorted)).
      + rewrite take_drop.
        now destruct (ranked_spec64 fuzzySearch query iconList) as (_ & Hsorted & _).
      + now apply list_elem_of_In.
      + now apply list_elem_of_In.
    - apply not_true_iff_false. intros Hkd.
      rewrite (ltb_trans _ _ _ Hk Hkd) in Hd. discriminate. }
  split; [exact Hlt |].
  intros Hnum. apply not_ltb_leb; [| exact Hnum | exact Hlt].
  now destruct (ltb_is_number _ _ Hk).
Qed.

Lemma returned_outrank_dropped_witness :
  "q" <> "" /\
  In byAlias (Binary64.getFilteredIcons tieSearch (byAlias :: aliasIcons ++ [byName]) "q") /\
  In byName (byAlias :: aliasIcons ++ [byName]) /\
  ~ In byName (Binary64.getFilteredIcons tieSearch (byAlias :: aliasIcons ++ [byName]) "q") /\
  (Binary64.scoreOf tieSearch "q" byAlias <? Binary64.scoreOf tieSearch "q" byName)%float
  = false.
Proof.
  assert (Hq : "q" <> "") by discriminate.
  assert (Hkept : In byAlias (Binary64.getFilteredIcons tieSearch
                                (byAlias :: aliasIcons ++ [byName]) "q"))
    by (vm_compute; left; reflexivity).
  assert (Hin : In byName (byAlias :: aliasIcons ++ [byName])).
  { right. apply in_or_app. right. left. reflexivity. }
  assert (Hdropped : ~ In byName (Binary64.getFilteredIcons tieSearch
                                    (byAlias :: aliasIcons ++ [byName]) "q")).
  { vm_compute. intros H.
    repeat (destruct H as [H | H]; [discriminate H |]). exact H. }
  split; [exact Hq |]. split; [exact Hkept |]. split; [exact Hin |].
  split; [exact Hdropped |].
  exact (proj1 (returned_outrank_dropped tieSearch _ "q" byAlias byName
                  Hq Hkept Hin Hdropped)).
Defined.

(** ** Examples on binary64 numbers *)

Example product_with_1_8_is_rounded :
  Binary64.scoreOf roundingSearch "q" byAlias = 0.7200000000000001%float /\
  Binary64.scoreOf roundingSearch "q" byName = 0.72%float.
Proof. split; reflexivity. Qed.

Example rounding_decides_the_order :
  Binary64.getFilteredIcons roundingSearch [byName; byAlias] "q" = [byAlias; byName].
Proof. vm_compute. reflexivity. Qed.

Example rounding_makes_a_tie :
  Binary64.getFilteredIcons tieSearch [byAlias; byName] "q" = [byAlias; byName] /\
  Binary64.getFilteredIcons tieSearch [byName; byAlias] "q" = [byName; byAlias].
Proof. split; vm_compute; reflexivity. Qed.

Example tie_cut_in_input_order :
  Binary64.getFilteredIcons tieSearch (aliasIcons ++ [byName]) "q" = aliasIcons.
Proof. vm_compute. reflexivity. Qed.

Example Math_max_of_nothing : Binary64.Math_max [] = neg_infinity.
Proof. reflexivity. Qed.

(** ** The open state under props that change *)

Lemma setIsOpen_internalOpen (p : Props) (value : bool) (st : State) :
  externalOnOpenChange p = true -> (setIsOpen p value st).1 = st.
Proof. intros Hcb. unfold setIsOpen. now rewrite Hcb. Qed.

Lemma handle_internalOpen (p : Props) (ev : Event) (st : State) :
  externalOnOpenChange p = true ->
  internalOpen (handle p ev st).1 = internalOpen st.
Proof.
  intros Hcb. destruct ev as [e activeTag | value | value | n]; simpl.
  - unfold handleKeyDown. destruct (isShortcut e activeTag); [| reflexivity].
    pose proof (setIsOpen_internalOpen p (negb (isOpen p st)) st Hcb) as H.
    destruct (setIsOpen p (negb (isOpen p st)) st) as [st' effects]. simpl in *.
    now rewrite H.
  - now rewrite setIsOpen_internalOpen.
  - reflexivity.
  - unfold handleSelect.
    pose proof (setIsOpen_internalOpen p false st Hcb) as H.
    destruct (setIsOpen p false st) as [st' effects]. simpl in *. now rewrite H.
Qed.

(** X6: as long as the parent passes [onOpenChange], no sequence of
    events writes [internalOpen], whatever other props the parent passes
    from one render to the next; so for any props of a later render
    [isOpen] is what it was for these props before the events, and only
    a new [open] from the parent changes it.  Whenever [open] is passed,
    [isOpen] is its value, whatever the state. *)
Theorem controlled_open_state_fixed (steps : list (Props * Event)) (st : State) :
  (forall p ev, In (p, ev) steps -> externalOnOpenChange p = true) ->
  internalOpen (handleEach steps st).1 = internalOpen st /\
  (forall later : Props, isOpen later (handleEach steps st).1 = isOpen later st) /\
  (forall (later : Props) (value : bool) (any : State),
     externalOpen later = Some value -> isOpen later any = value).
Proof.
  intros Hcb.
  assert (Hint : internalOpen (handleEach steps st).1 = internalOpen st).
  { revert st. induction steps as [| [p ev] steps IH]; intros st; [reflexivity |].
    simpl. pose proof (handle_internalOpen p ev st (Hcb p ev (or_introl eq_refl))) as H1.
    destruct (handle p ev st) as [st1 effects1]. simpl in H1.
    specialize (IH (fun p' ev' Hin => Hcb p' ev' (or_intror Hin)) st1).
    destruct (handleEach steps st1) as [st2 effects2]. simpl in *. congruence. }
  split; [exact Hint |]. split.
  - intros later. unfold isOpen. now rewrite Hint.
  - intros later value any Hopen. unfold isOpen. now rewrite Hopen.
Qed.

Lemma controlled_open_state_fixed_witness :
  (forall p ev,
     In (p, ev)
       [({| externalOpen := Some false; externalOnOpenChange := true |}, KeyDown ctrlK None);
        ({| externalOpen := Some true; externalOnOpenChange := true |}, Select "plex")] ->
     externalOnOpenChange p = true) /\
  internalOpen
    (handleEach
       [({| externalOpen := Some false; externalOnOpenChange := true |}, KeyDown ctrlK None);
        ({| externalOpen := Some true; externalOnOpenChange := true |}, Select "plex")]
       initialState).1 = internalOpen initialState.
Proof.
  assert (Hcb : forall p ev,
            In (p, ev)
              [({| externalOpen := Some false; externalOnOpenChange := true |},
                KeyDown ctrlK None);
               ({| externalOpen := Some true; externalOnOpenChange := true |},
                Select "plex")] ->
            externalOnOpenChange p = true).
  { intros p ev [[= <- _] | [[= <- _] | []]]; reflexivity. }
  split; [exact Hcb |].
  exact (proj1 (controlled_open_state_fixed _ initialState Hcb)).
Defined.
